(* ===== verification/_CoqProject ===== *)
-Q . S2P
Prelude.v
TranslationUnit.v
Transformer.v
Sequence.v
Loop.v
Pipeline.v
PipelineLoops.v
PipelineFaults.v
PipelineCache.v
PipelineEquiv.v
Scenarios.v
