(* ===== verification/Prelude.v ===== *)
(** * Verification of Souffle's RAM transformer composition core

    Program: the pass-composition core of Souffle's RAM optimiser,
    [src/src/ram/transform/Sequence.h] ([RamTransformerSequence]) and
    [src/src/ram/transform/Loop.h] ([RamLoopTransformer]), together with the
    base contract they derive from ([RamTransformer::apply] and the
    [RamTranslationUnit] analysis cache), which is not under [src/] and is
    modelled from the spec (marked spec_modelled in the manifest).

    ** Parts and how they interact

    A transformer rewrites a translation unit (the RAM program plus a cache
    of analyses) and reports whether it changed it.  The public entry
    [apply] (base class) calls the virtual [transform], invalidates the
    analysis cache when the result is [true], and records a trace line.
    [RamTransformerSequence::transform] calls [apply] of each child once,
    in order, and returns the result of the last one.
    [RamLoopTransformer::transform] calls [apply] of its body until it
    returns [false], counting the [true] results in a C++ [int], and
    returns [ctr > 0].  Composites nest, so a pipeline is a tree.

    ** Files

    - [Prelude]: this header; the state monad [St] with three outcomes
      ([Done], [OutOfFuel], [Crash f]) and its [do] notation (scope
      [pass_scope]), where a fault [f] is a null dereference or the fatal
      error of a named pass; Hoare-style [triple] and [preserves] used as
      the contract between a composite and its children; the definedness
      preorder [st_le] (more fuel only replaces [OutOfFuel]) with the
      [Proper] instance of bind; [faults_only P m] (every fault of [m]
      satisfies [P]); the 32-bit signed
      [int] of [Loop.h] ([int32_wrap], [int_succ]); the hint databases
      [pass] and [pass_rw] and the tactic [st_inv].
    - [TranslationUnit]: the [RamTranslationUnit] record, [getAnalysis]
      (memoised analysis lookup, with its round trip [getAnalysis_memo]),
      [invalidateAnalyses], and the cache coherence invariant [coherent]
      (spec_modelled).
    - [Transformer]: the run state [Run] (translation unit and trace),
      the base [apply] wrapper [base_apply] and leaf transformers, whose
      rewrite may fail with a fatal error (spec_modelled); the theorem that the wrapper's invalidation
      establishes coherence whenever a pass reports a change; leaves that
      read analyses through the cache ([analysis_pass], safe for the cache
      when they report every change); counting a pass's lines in the
      trace ([count_applies]).
    - [Sequence]: [RamTransformerSequence]: its constructor with the
      non-null assertion ([mkSequence], [assert_nonnull]), [getName], and
      [transform] over any list of child computations; the abstract
      specification [seq_runs] (each child once, in order) and the
      refinement theorem.
    - [Loop]: [RamLoopTransformer]: [transform] with the [int ctr]
      counter at 32-bit width, over any body computation; the abstract
      specification [stabilises] (k [true] results then one [false]),
      soundness, completeness with exact fuel, divergence, termination
      under a ranking function, and the counter overflow at 2^31.
    - [Pipeline]: the composite tree [RamTransformer] whose children are
      nullable owning pointers ([option RamTransformer], as [Own<T>]),
      the member call through such a pointer ([deref]), the interpreter
      [apply] that ties the components together, the constructors
      [mkSeq] and [mkLoop], the well-formedness check [wf], the big-step
      relation [exec]; adequacy, determinism, fuel monotonicity, the
      trace, liveness of leaves, and the null-pointer crashes.
    - [PipelineLoops]: loop nodes of a pipeline: refinement of the loop
      specification, honesty and the convergence law for a loop around
      an honest body whose flag depends only on the program, premature
      convergence of a loop around a sequence whose last element never
      reports a change ([loop_stops_at_stable_last]), the trace
      of a loop read back as its iterations ([body_trace]), and
      compositional termination ([converges]).
    - [PipelineFaults]: faults in pipelines: a fault of an element a
      sequence reaches, or of a loop body after [k] changing iterations,
      is the fault of the composite (spec section 7: no catch, no
      partial result).
    - [PipelineCache]: the cache coherence invariant for whole pipelines,
      no stale analysis read, and transparency of the cache (Section
      [Transparency], over an invariant [I] of the units closed under
      [invalidateAnalyses]): from units with the same program, a
      pipeline whose leaves depend only on the program gives the same
      flag and program; with [I] trivial this makes every such pipeline
      flag-determined ([pure_flag_determined]).
    - [PipelineEquiv]: equivalence of pipelines up to the trace
      ([pass_equiv], an [Equivalence] defined on the interpreter [apply]
      and characterised on [exec]); the semantics ignores the trace;
      flattening of nested sequences, the singleton sequence, and the
      congruence of loops and sequences for [pass_equiv].
    - [Scenarios]: the concrete scenarios of the spec (section 8) run on
      small programs ([Order], [NestedFixpoint], [SingleNoop]), the
      counterexamples to the spec's "idempotent convergence law" and the
      NDEBUG build with a null child ([Convergence]), the boundary case
      of flattening ([Flatten]), and instances of the pipeline theorems
      at concrete pipelines ([Instances]).  The scenarios are [Example]s
      on fixed inputs: they back the findings and show the general
      theorems' hypotheses satisfiable; they are not properties of their
      own.

    ** Interfaces between the components

    A composite sees its children only as computations [St Run bool]
    (their [apply]), as the source's composites see [RamTransformer*].
    The contract a child offers is a [preserves]/[triple] statement, an
    [st_le] inequality or a [faults_only] bound; [Sequence] and [Loop]
    prove that they preserve every invariant their children preserve
    ([seq_loop_preserves], [transform_preserves]), that they have no
    faults but their children's ([seq_loop_faults_only],
    [transform_faults_only]) and that they are monotone in their children
    and in fuel ([Proper] instances [seq_loop_mono], [while_loop_mono],
    [transform_mono], [base_apply_mono]).  [Pipeline] instantiates the
    children with [deref (apply fuel)] and discharges these contracts by
    induction on the tree ([RamTransformer_ind']).

    ** Theorems, by group

    - Sequence ([Sequence]): refinement of [seq_runs] (each child once,
      in order, last flag decides); the constructor's assertion.
    - Loop ([Loop]): exact fuel ([k + 1] body calls), soundness, the flag
      below 2^31, the overflow at 2^31, the counter read back as the
      number of changing iterations (round trip), divergence without a
      cap, termination under a ranking function.
    - Pipelines ([Pipeline], [PipelineLoops], [PipelineCache]): adequacy
      of [apply] for [exec], determinism, the trace, every leaf applied
      in every terminating run (liveness), loop nodes refine the loop
      specification, honesty of loops and the convergence law for loops,
      the trace of a loop as [k] changing applications of its body and
      one stable one, the empty sequence, compositional termination,
      cache coherence, no stale analysis read after a run
      ([analysis_fresh]), and transparency of the cache
      ([cache_transparent]).
    - Null pointers ([Pipeline]): well-formed pipelines never dereference
      a null pointer, their only faults are failures of their leaves; the
      debug constructor yields well-formed sequences; a null element of
      a sequence crashes when reached; [RamLoopTransformer]'s
      constructor accepts a null body, which crashes on the first
      [apply].
    - Faults ([Loop], [PipelineFaults]): a fault of the body (after any
      number of changing iterations) or of an element propagates
      unchanged to the composite; [Scenarios.Failure] has a loop whose
      body changes the unit once and then fails.
    - Equivalence ([PipelineEquiv]): flattening, singleton, congruence.
    - Supporting lemmas, not properties of their own: adequacy of the
      interpreter for [exec] ([apply_adequate]) and determinism, the
      congruences of [pass_equiv], the singleton sequence, the faults of
      well-formed pipelines ([wf_only_pass_failures]) and the null body
      of [mkLoop] ([mkLoop_null_crash]).
    - Scenarios and counterexamples ([Scenarios]).

    ** Fuel

    Only [RamLoopTransformer] can run forever (the source has no cap).
    Every interpreter takes a [fuel : nat] bounding the iterations of each
    loop; [OutOfFuel] means "no answer yet", never a result of the program.
    Both directions are proved: a result with some fuel is a result of
    the relational semantics, and every relational run is reached with
    enough fuel ([k + 1] for a loop whose body reports [true] [k] times,
    which is also the minimum).  Divergence is stated as [OutOfFuel] for all
    fuel.  A crash is an outcome of the program: more fuel never turns a
    crash into a result ([st_le]).

    ** Integers

    [int ctr] of [Loop.h] is kept at 32 bits: [ctr++] is [int_succ],
    two's complement wrap-around.  Signed overflow is undefined in C++; the
    wrap is what the generated code does without optimisation, and the
    theorems show the reported flag is right exactly while the number of
    changing iterations is below 2^31.

    ** Not modelled

    The contents of a RAM program and of the individual rewrite passes
    (they are arbitrary functions [TranslationUnit -> option
    (TranslationUnit * bool)] at the leaves, [None] for a fatal error), the timing and debug-report printing of
    [apply] (only the name/changed trace is kept), and C++ ownership
    ([Own], [VecOwn]) beyond nullability: moves, destruction and
    aliasing cannot arise in the two headers, which only take ownership
    and call through the pointers.  [RamMetaTransformer] only marks
    composites for verbose output; the trace here has a line for every
    [apply], composites included.

    ** Plan for further work

    - the convergence law fails for sequences ([Scenarios.Convergence]),
      so it cannot extend to arbitrary pipelines; what remains open is a
      characterisation of the sequences it holds for (for instance,
      sequences whose every element has converged). *)

From stdpp Require Export base list gmap strings.
From Stdlib Require Export ZArith Lia.

(** ** Outcomes and the state monad *)

(** Why a computation stopped without a result of the program: a member
    call through a null [Own<T>] (undefined behaviour in C++), or a fatal
    error raised by the rewrite logic of the named pass (spec section 7:
    not caught, it aborts the pipeline). *)
Inductive fault : Type :=
| NullDereference
| PassFailure (name : string).

(** [Done]: a result; [OutOfFuel]: the fuel ran out before one was known;
    [Crash f]: the program faults with [f]. *)
Inductive outcome (A : Type) : Type :=
| Done (a : A)
| OutOfFuel
| Crash (f : fault).
Arguments Done {A} a.
Arguments OutOfFuel {A}.
Arguments Crash {A} f.

Definition St (S A : Type) : Type := S -> outcome (A * S).

Definition st_ret {S A} (a : A) : St S A := fun s => Done (a, s).

Definition st_bind {S A B} (m : St S A) (k : A -> St S B) : St S B :=
  fun s => match m s with
           | Done (a, s') => k a s'
           | OutOfFuel => OutOfFuel
           | Crash f => Crash f
           end.

(** Running out of fuel: no result is known. *)
Definition out_of_fuel {S A} : St S A := fun _ => OutOfFuel.

(** [p->method(...)] with [p] null. *)
Definition null_deref {S A} : St S A := fun _ => Crash NullDereference.

Definition st_modify {S} (f : S -> S) : St S unit := fun s => Done (tt, f s).

Declare Scope pass_scope.
Delimit Scope pass_scope with pass.
Notation "'do' x <- m ; k" := (st_bind m (fun x => k))
  (at level 60, x name, m at next level, right associativity) : pass_scope.
Open Scope pass_scope.

(** ** Contracts between a composite and its children *)

(** [triple P m Q]: started in a state satisfying [P], every result
    [(b, s')] that [m] returns satisfies [Q b s']. *)
Definition triple {S A} (P : S -> Prop) (m : St S A) (Q : A -> S -> Prop) : Prop :=
  forall s a s', P s -> m s = Done (a, s') -> Q a s'.

Definition preserves {S A} (I : S -> Prop) (m : St S A) : Prop :=
  triple I m (fun _ => I).

(** ** 32-bit signed integers *)

Local Open Scope Z_scope.

Definition INT_MIN : Z := - 2 ^ 31.
Definition INT_MAX : Z := 2 ^ 31 - 1.

(** Two's complement reduction of an integer to 32 bits. *)
Definition int32_wrap (z : Z) : Z := (z + 2 ^ 31) mod 2 ^ 32 - 2 ^ 31.

(** [ctr++] on a C++ [int]. *)
Definition int_succ (ctr : Z) : Z := int32_wrap (ctr + 1).

(** ** Generic lemmas *)

Create HintDb pass.
Create Rewrite HintDb pass_rw.

Lemma st_bind_Done {S A B} (m : St S A) (k : A -> St S B) s b s' :
  st_bind m k s = Done (b, s') <->
  exists a s1, m s = Done (a, s1) /\ k a s1 = Done (b, s').
Proof.
  unfold st_bind. split.
  - destruct (m s) as [[a s1]| |]; [eauto | discriminate | discriminate].
  - intros (a & s1 & -> & Hk). exact Hk.
Qed.

Lemma st_bind_OutOfFuel {S A B} (m : St S A) (k : A -> St S B) s :
  m s = OutOfFuel -> st_bind m k s = OutOfFuel.
Proof. unfold st_bind. by intros ->. Qed.

Lemma st_bind_Crash {S A B} (m : St S A) (k : A -> St S B) s f :
  m s = Crash f -> st_bind m k s = Crash f.
Proof. unfold st_bind. by intros ->. Qed.

Lemma st_bind_Done_eq {S A B} (m : St S A) (k : A -> St S B) s a s1 :
  m s = Done (a, s1) -> st_bind m k s = k a s1.
Proof. unfold st_bind. by intros ->. Qed.

Lemma st_ret_Done {S A} (a a' : A) (s s' : S) :
  st_ret a s = Done (a', s') <-> a = a' /\ s = s'.
Proof. unfold st_ret. split; [by intros [= -> ->] | by intros [-> ->]]. Qed.

(** Decompose hypotheses [st_bind m k s = Done _] and [st_ret a s = Done _]. *)
Ltac st_inv :=
  repeat match goal with
  | H : st_bind _ _ _ = Done (_, _) |- _ =>
      apply st_bind_Done in H; destruct H as (? & ? & ? & H)
  | H : st_ret _ _ = Done (_, _) |- _ =>
      apply st_ret_Done in H; destruct H as [? ?]; subst
  | H : Done _ = Done _ |- _ => injection H as; subst
  | H : out_of_fuel _ = Done _ |- _ => discriminate H
  | H : null_deref _ = Done _ |- _ => discriminate H
  end.

Lemma triple_bind {S A B} (P : S -> Prop) (Q : A -> S -> Prop) (R : B -> S -> Prop)
      (m : St S A) (k : A -> St S B) :
  triple P m Q -> (forall a, triple (Q a) (k a) R) -> triple P (st_bind m k) R.
Proof. intros Hm Hk s b s' HP H. st_inv. eapply Hk; [eapply Hm|]; eauto. Qed.

Lemma triple_ret {S A} (P : S -> Prop) (a : A) : triple P (st_ret a) (fun _ => P).
Proof. intros s b s' HP H. by st_inv. Qed.

Lemma triple_consequence {S A} (P P' : S -> Prop) (Q Q' : A -> S -> Prop) m :
  triple P' m Q' -> (forall s, P s -> P' s) -> (forall a s, Q' a s -> Q a s) ->
  triple P m Q.
Proof. intros H HP HQ s a s' Hs Hm. eapply HQ, H; eauto. Qed.

Lemma preserves_null_deref {S A} (I : S -> Prop) : preserves I (@null_deref S A).
Proof. by intros s a s' _ H. Qed.

#[export] Hint Resolve triple_bind triple_ret preserves_null_deref : pass.

(** ** Definedness order on computations *)

(** [st_le m1 m2]: wherever [m1] has an outcome other than running out of
    fuel (a result or a crash), [m2] has the same one: more fuel never
    changes an outcome, it only replaces [OutOfFuel]. *)
Definition st_le {S A} (m1 m2 : St S A) : Prop :=
  forall s, m1 s <> OutOfFuel -> m2 s = m1 s.

#[export] Instance st_le_preorder {S A} : PreOrder (@st_le S A).
Proof.
  split; [by intros m s | intros m1 m2 m3 H12 H23 s H].
  rewrite H23; [by apply H12 | by rewrite H12].
Qed.

Lemma st_le_Done {S A} (m1 m2 : St S A) s x :
  st_le m1 m2 -> m1 s = Done x -> m2 s = Done x.
Proof. intros H E. rewrite H; [done | by rewrite E]. Qed.

Lemma st_le_Crash {S A} (m1 m2 : St S A) s f :
  st_le m1 m2 -> m1 s = Crash f -> m2 s = Crash f.
Proof. intros H E. rewrite H; [done | by rewrite E]. Qed.

#[export] Instance st_bind_mono {S A B} :
  Proper (st_le ==> pointwise_relation A st_le ==> st_le) (@st_bind S A B).
Proof.
  intros m1 m2 Hm k1 k2 Hk s H. unfold st_bind in *.
  destruct (m1 s) as [[a s1]| |] eqn:E; [| done |].
  - rewrite (st_le_Done _ _ _ _ Hm E). by apply Hk.
  - by rewrite (st_le_Crash _ _ _ _ Hm E).
Qed.

(** ** Which faults a computation can have *)

(** [faults_only P m]: every fault of [m] satisfies [P]; with [P] empty,
    [m] never crashes. *)
Definition faults_only {S A} (P : fault -> Prop) (m : St S A) : Prop :=
  forall s f, m s = Crash f -> P f.

Lemma faults_only_weaken {S A} (P Q : fault -> Prop) (m : St S A) :
  (forall f, P f -> Q f) -> faults_only P m -> faults_only Q m.
Proof. intros HPQ Hm s f E. by apply HPQ, (Hm s). Qed.

Lemma faults_only_bind {S A B} P (m : St S A) (k : A -> St S B) :
  faults_only P m -> (forall a, faults_only P (k a)) -> faults_only P (st_bind m k).
Proof.
  intros Hm Hk s f. unfold st_bind.
  destruct (m s) as [[a s1]| |f'] eqn:E; [apply Hk | done | intros [= <-]; by apply (Hm s)].
Qed.

Lemma faults_only_ret {S A} P (a : A) : faults_only P (@st_ret S A a).
Proof. by intros s f [=]. Qed.

Lemma faults_only_modify {S} P (f : S -> S) : faults_only P (st_modify f).
Proof. by intros s g [=]. Qed.

Lemma faults_only_out_of_fuel {S A} P : faults_only P (@out_of_fuel S A).
Proof. by intros s g [=]. Qed.

#[export] Hint Resolve faults_only_bind faults_only_ret faults_only_modify
  faults_only_out_of_fuel : pass.

Lemma iter_shift {A} (f : A -> A) k x : Nat.iter k f (f x) = f (Nat.iter k f x).
Proof. induction k as [|k IH]; simpl; congruence. Qed.

Lemma int32_wrap_range z : INT_MIN <= int32_wrap z <= INT_MAX.
Proof.
  unfold int32_wrap, INT_MIN, INT_MAX.
  pose proof (Z.mod_pos_bound (z + 2 ^ 31) (2 ^ 32)). lia.
Qed.

Lemma int32_wrap_small z : INT_MIN <= z <= INT_MAX -> int32_wrap z = z.
Proof.
  unfold int32_wrap, INT_MIN, INT_MAX. intros H.
  rewrite Z.mod_small; lia.
Qed.

Lemma int_succ_wrap z : int_succ (int32_wrap z) = int32_wrap (z + 1).
Proof.
  unfold int_succ, int32_wrap.
  replace ((z + 2 ^ 31) mod 2 ^ 32 - 2 ^ 31 + 1 + 2 ^ 31)
    with ((z + 2 ^ 31) mod 2 ^ 32 + 1) by lia.
  rewrite Zplus_mod_idemp_l. f_equal. f_equal. lia.
Qed.

(** [k] increments of a counter that starts at [0]. *)
Lemma int_succ_iter k : Nat.iter k int_succ 0 = int32_wrap (Z.of_nat k).
Proof.
  induction k as [|k IH]; [reflexivity |].
  rewrite Nat.iter_succ, IH, int_succ_wrap. f_equal. lia.
Qed.

#[export] Hint Rewrite int_succ_wrap int_succ_iter : pass_rw.
