(* ===== verification/TranslationUnit.v ===== *)
(** * The translation unit and its analysis cache

    [RamTranslationUnit] (ram/TranslationUnit.h, not under [src/]; modelled
    from the spec, section 3): the RAM program together with a cache of
    analyses keyed by analysis name.  [getAnalysis] computes an analysis
    on first use and memoises it; [invalidateAnalyses] clears the cache,
    which the base [apply] does whenever a pass reports a change.  The
    invariant [coherent] says every cached analysis is the one the current
    program would produce. *)

From S2P Require Import Prelude.

Section TranslationUnit.
Context {Prog Analysis : Type}.

Record TranslationUnit := mkTranslationUnit {
  program : Prog;
  analyses : gmap string Analysis
}.

(** [RamTranslationUnit::invalidateAnalyses]: [analyses.clear()]. *)
Definition invalidateAnalyses (tu : TranslationUnit) : TranslationUnit :=
  mkTranslationUnit (program tu) ∅.

(** Replace the program (what a rewrite pass does). *)
Definition setProgram (tu : TranslationUnit) (p : Prog) : TranslationUnit :=
  mkTranslationUnit p (analyses tu).

(** The analyses, as functions of the program. *)
Context (analyse : string -> Prog -> Analysis).

(** [RamTranslationUnit::getAnalysis]: look the analysis up in the cache,
    computing and inserting it when it is missing. *)
Definition getAnalysis (name : string) : St TranslationUnit Analysis :=
  fun tu =>
    match analyses tu !! name with
    | Some a => Done (a, tu)
    | None =>
        let a := analyse name (program tu) in
        Done (a, mkTranslationUnit (program tu) (<[name := a]> (analyses tu)))
    end.

(** Cache coherence: every cached analysis agrees with the program. *)
Definition coherent (tu : TranslationUnit) : Prop :=
  map_Forall (fun name a => a = analyse name (program tu)) (analyses tu).

#[global] Instance coherent_dec
  `{EqDecision Analysis} (tu : TranslationUnit) : Decision (coherent tu).
Proof. unfold coherent. apply _. Defined.

(** ** Properties *)

Lemma invalidateAnalyses_coherent tu : coherent (invalidateAnalyses tu).
Proof. apply map_Forall_empty. Qed.

Lemma invalidateAnalyses_program tu : program (invalidateAnalyses tu) = program tu.
Proof. reflexivity. Qed.

(** [getAnalysis] always answers, never changes the program, keeps the
    cache coherent and, on a coherent unit, returns the analysis of the
    current program. *)
Lemma getAnalysis_correct name tu :
  coherent tu ->
  exists tu', getAnalysis name tu = Done (analyse name (program tu), tu') /\
              program tu' = program tu /\ coherent tu' /\
              analyses tu' !! name = Some (analyse name (program tu)).
Proof.
  unfold getAnalysis, coherent. intros Hc.
  destruct (analyses tu !! name) as [a|] eqn:E.
  - exists tu. rewrite (Hc _ _ E). split_and!; auto.
    by rewrite <- (Hc _ _ E).
  - eexists. split_and!; [reflexivity | reflexivity | |].
    + apply map_Forall_insert_2; [done | exact Hc].
    + apply lookup_insert_eq.
Qed.

Lemma getAnalysis_program name tu a tu' :
  getAnalysis name tu = Done (a, tu') -> program tu' = program tu.
Proof.
  unfold getAnalysis. destruct (analyses tu !! name); intros [= <- <-]; done.
Qed.

(** Memoisation round trip: once [getAnalysis] has answered [a],
    asking again for the same analysis answers [a] from the cache and
    leaves the unit as it is (insert, then lookup). *)
Theorem getAnalysis_memo name tu a tu' :
  getAnalysis name tu = Done (a, tu') -> getAnalysis name tu' = Done (a, tu').
Proof.
  unfold getAnalysis. destruct (analyses tu !! name) as [a0|] eqn:E; intros [= <- <-].
  - by rewrite E.
  - simpl. by rewrite lookup_insert_eq.
Qed.
End TranslationUnit.

Arguments TranslationUnit : clear implicits.
#[export] Hint Resolve invalidateAnalyses_coherent : pass.
