(* ===== verification/Transformer.v ===== *)
(** * The transformer base contract

    [RamTransformer::apply] (ram/transform/Transformer.h, not under [src/];
    modelled from the spec, section 4.1): the non-overridable entry point
    that calls the virtual [transform], invalidates the translation unit's
    analyses when [transform] reports a change, and emits a trace line
    (the pass name and whether it changed the unit).  The run state [Run]
    is the translation unit together with the trace emitted so far.
    Leaf passes are arbitrary functions on the translation unit that
    may fail with a fatal error ([PassFailure name]), not caught by the
    wrapper. *)

From S2P Require Import Prelude TranslationUnit.

Section Transformer.
Context {Prog Analysis : Type}.

Abbreviation TU := (TranslationUnit Prog Analysis).

(** A trace line: the name of the pass and its changed flag. *)
Definition event : Type := string * bool.

Record Run := mkRun {
  run_tu : TU;
  run_log : list event
}.

Definition invalidate_run (r : Run) : Run :=
  mkRun (invalidateAnalyses (run_tu r)) (run_log r).

Definition trace_apply (name : string) (changed : bool) (r : Run) : Run :=
  mkRun (run_tu r) (run_log r ++ [(name, changed)]).

(** The state after [apply] of a pass called [name] whose [transform]
    reported [changed] and left [r]. *)
Definition after_apply (name : string) (changed : bool) (r : Run) : Run :=
  trace_apply name changed (if changed then invalidate_run r else r).

(** [RamTransformer::apply]:
    [changed = transform(tU); if (changed) tU.invalidateAnalyses();
     trace; return changed]. *)
Definition base_apply (name : string) (transform : St Run bool) : St Run bool :=
  do changed <- transform ;
  do _ <- st_modify (fun r => if changed then invalidate_run r else r) ;
  do _ <- st_modify (trace_apply name changed) ;
  st_ret changed.

(** How many trace lines carry [name]. *)
Fixpoint count_applies (name : string) (log : list event) : nat :=
  match log with
  | [] => 0
  | (n, _) :: log' => (if String.eqb n name then 1 else 0) + count_applies name log'
  end.

Lemma count_applies_app name l1 l2 :
  count_applies name (l1 ++ l2) = count_applies name l1 + count_applies name l2.
Proof. induction l1 as [|[n c] l1 IH]; simpl; [done | rewrite IH; lia]. Qed.

Lemma run_log_after_apply name b r :
  run_log (after_apply name b r) = run_log r ++ [(name, b)].
Proof. by destruct b. Qed.

Lemma run_tu_after_apply name b r :
  run_tu (after_apply name b r) =
  if b then invalidateAnalyses (run_tu r) else run_tu r.
Proof. by destruct b. Qed.

Lemma count_applies_self name b : count_applies name [(name, b)] = 1.
Proof. simpl. by rewrite String.eqb_refl. Qed.

Lemma count_applies_other name name' b :
  name' <> name -> count_applies name [(name', b)] = 0.
Proof. intros Hn. simpl. by rewrite (proj2 (String.eqb_neq _ _) Hn). Qed.

(** A leaf pass called [name]: its [transform] rewrites the unit and
    reports a change, or its rewrite logic hits a fatal error ([None]),
    which is not caught (spec section 7). *)
Definition leaf_transform (name : string) (f : TU -> option (TU * bool)) : St Run bool :=
  fun r => match f (run_tu r) with
           | Some (tu', changed) => Done (changed, mkRun tu' (run_log r))
           | None => Crash (PassFailure name)
           end.

(** A leaf rewrite without fatal errors. *)
Definition leaf_total (f : TU -> option (TU * bool)) : Prop := forall tu, is_Some (f tu).

(** ** The wrapper's behaviour *)

Lemma base_apply_Done name m r b r' :
  base_apply name m r = Done (b, r') <->
  exists r1, m r = Done (b, r1) /\ r' = after_apply name b r1.
Proof.
  unfold base_apply, st_modify. split.
  - intros H. st_inv. eauto.
  - intros (r1 & Hm & ->). by rewrite (st_bind_Done_eq _ _ _ _ _ Hm).
Qed.

#[global] Instance base_apply_mono name : Proper (st_le ==> st_le) (base_apply name).
Proof. intros m1 m2 Hm. unfold base_apply. by apply st_bind_mono. Qed.

Lemma base_apply_OutOfFuel name m r : m r = OutOfFuel -> base_apply name m r = OutOfFuel.
Proof. apply st_bind_OutOfFuel. Qed.

Lemma base_apply_faults_only P name m :
  faults_only P m -> faults_only P (base_apply name m).
Proof. intros Hm. unfold base_apply. eauto 6 with pass. Qed.

(** A leaf faults only with its own failure, and not at all when total. *)
Lemma leaf_transform_faults_only name f :
  faults_only (fun g => g = PassFailure name) (leaf_transform name f).
Proof. intros r g. unfold leaf_transform. by destruct (f (run_tu r)) as [[]|]; intros [=]. Qed.

Lemma leaf_transform_total name f :
  leaf_total f -> faults_only (fun _ => False) (leaf_transform name f).
Proof.
  intros Hf r g. unfold leaf_transform. destruct (Hf (run_tu r)) as [[tu' c] ->]. by intros [=].
Qed.

Lemma leaf_transform_Crash name f r :
  f (run_tu r) = None -> leaf_transform name f r = Crash (PassFailure name).
Proof. unfold leaf_transform. by intros ->. Qed.

Lemma leaf_transform_Done name f r b r' :
  leaf_transform name f r = Done (b, r') <->
  f (run_tu r) = Some (run_tu r', b) /\ run_log r' = run_log r.
Proof.
  unfold leaf_transform. destruct (f (run_tu r)) as [[tu' c]|]; [| by split; [|intros [? _]]].
  split; [by intros [= <- <-] | destruct r'; simpl; intros [[= -> ->] ->]; done].
Qed.

(** ** Cache coherence *)

Context (analyse : string -> Prog -> Analysis).

Definition run_coherent (r : Run) : Prop := coherent analyse (run_tu r).

(** A leaf pass that reads an analysis through the cache
    ([tU.getAnalysis<...>()]) and rewrites the program with it; [rewrite]
    returns the new program and whether it changed it, or fails. *)
Definition analysis_pass (name : string) (rewrite : Analysis -> Prog -> option (Prog * bool))
    (tu : TU) : option (TU * bool) :=
  match getAnalysis analyse name tu with
  | Done (a, tu1) =>
      match rewrite a (program tu1) with
      | Some (p', changed) => Some (setProgram tu1 p', changed)
      | None => None
      end
  | _ => None
  end.

(** What a pass must guarantee for the cache: when it reports no change,
    it leaves the cache coherent. *)
Definition reports_changes (m : St Run bool) : Prop :=
  triple run_coherent m (fun b r => b = false -> run_coherent r).

(** A leaf rewrite function that keeps a coherent cache coherent
    whenever it reports no change. *)
Definition leaf_ok (f : TU -> option (TU * bool)) : Prop :=
  forall tu tu', coherent analyse tu -> f tu = Some (tu', false) -> coherent analyse tu'.

Lemma leaf_transform_reports name (f : TU -> option (TU * bool)) :
  leaf_ok f -> reports_changes (leaf_transform name f).
Proof.
  intros Hf r b r' Hc (Hr & _)%leaf_transform_Done ->. by apply (Hf _ _ Hc).
Qed.
Lemma preserves_reports_changes m :
  preserves run_coherent m -> reports_changes m.
Proof. intros H r b r' Hc Hm _. eapply H; eauto. Qed.

(** The wrapper makes every pass safe for the cache: if a pass's
    [transform] keeps the cache coherent whenever it reports no change,
    its [apply] keeps the cache coherent in every case, because a
    reported change clears the cache. *)
Theorem base_apply_coherent name m :
  reports_changes m -> preserves run_coherent (base_apply name m).
Proof.
  intros Hm r b r' Hc (r1 & H1 & ->)%base_apply_Done.
  unfold run_coherent; destruct b; simpl.
  - apply invalidateAnalyses_coherent.
  - by apply (Hm r false r1).
Qed.

(** A pass that reads analyses through the cache is safe for it
    ([leaf_ok]), as long as its rewrite reports every change: the read
    keeps the cache coherent, and a rewrite that reports no change
    leaves the program, hence the cached analyses, as they are. *)
Theorem analysis_pass_ok name (rewrite : Analysis -> Prog -> option (Prog * bool)) :
  (forall a p p', rewrite a p = Some (p', false) -> p' = p) ->
  leaf_ok (analysis_pass name rewrite).
Proof.
  intros Hr tu tu' Hc. unfold analysis_pass.
  destruct (getAnalysis_correct analyse name tu Hc) as (tu1 & -> & _ & Hc1 & _).
  destruct (rewrite _ (program tu1)) as [[p' []]|] eqn:E; intros [= <-].
  rewrite (Hr _ _ _ E). by destruct tu1.
Qed.
End Transformer.

#[export] Hint Resolve base_apply_coherent preserves_reports_changes
  leaf_transform_reports : pass.

Arguments Run : clear implicits.
