(* ===== verification/Sequence.v ===== *)
(** * [RamTransformerSequence] (src/src/ram/transform/Sequence.h)

    The constructor moves its arguments into the vector [transformers] and
    asserts that each is non-null; [transform] applies every element once,
    in order, and returns the flag of the last one.  The children are
    given as their [apply] computations, so everything here holds for
    atomic and composite children alike.  [seq_runs] is the abstract
    specification (each child runs once, in order, on the state its
    predecessor left); [transform_refines] shows [transform] implements it. *)

From S2P Require Import Prelude.

Module RamTransformerSequence.

(** The failure of a C++ [assert]: the process aborts. *)
Inductive fatal : Type := AssertionFailed (condition : string).

Section Construction.
Context {T : Type}.

(** [for (const auto& cur : transformers) assert(cur);] *)
Fixpoint assert_nonnull (transformers : list (option T)) : option fatal :=
  match transformers with
  | [] => None
  | None :: _ => Some (AssertionFailed "cur")
  | Some _ :: rest => assert_nonnull rest
  end.

(** The variadic constructor: the arguments are moved into
    [transformers] in order, then checked.  [ndebug] is the build flag
    [NDEBUG], under which [assert] expands to nothing. *)
Definition mkSequence (ndebug : bool) (tf : list (option T))
  : fatal + list (option T) :=
  let transformers := tf in
  if ndebug then inr transformers
  else match assert_nonnull transformers with
       | Some e => inl e
       | None => inr transformers
       end.
End Construction.

Lemma assert_nonnull_None {T} (transformers : list (option T)) :
  assert_nonnull transformers = None <-> Forall is_Some transformers.
Proof.
  induction transformers as [|[t|] ts IH]; simpl.
  - split; [constructor | done].
  - rewrite IH. split; [by constructor; eauto | by inversion 1].
  - split; [done | inversion 1 as [|? ? Hs]; by destruct Hs].
Qed.

Definition getName : string := "RamTransformerSequence".

Section Transform.
Context {State : Type}.

(** The loop [for (cur : transformers) changed = cur->apply(tU);]. *)
Fixpoint seq_loop (transformers : list (St State bool)) (changed : bool)
  : St State bool :=
  match transformers with
  | [] => st_ret changed
  | cur :: rest => do changed' <- cur ; seq_loop rest changed'
  end.

(** [RamTransformerSequence::transform]. *)
Definition transform (transformers : list (St State bool)) : St State bool :=
  seq_loop transformers false.

(** ** Abstract specification *)

(** [seq_runs ms s bs s']: the children [ms] run once each, in order,
    from [s], reporting [bs] and ending in [s']. *)
Inductive seq_runs : list (St State bool) -> State -> list bool -> State -> Prop :=
| seq_runs_nil s : seq_runs [] s [] s
| seq_runs_cons m ms s b s1 bs s' :
    m s = Done (b, s1) -> seq_runs ms s1 bs s' ->
    seq_runs (m :: ms) s (b :: bs) s'.

(** The flag the spec requires: the last child's, [false] if none. *)
Definition last_flag (bs : list bool) : bool := default false (last bs).

(** ** Lemmas *)

Lemma last_flag_cons_default (c b : bool) bs :
  default c (last (b :: bs)) = default b (last bs).
Proof. rewrite last_cons. by destruct (last bs). Qed.

Lemma seq_runs_length ms s bs s' :
  seq_runs ms s bs s' -> length bs = length ms.
Proof. induction 1; simpl; auto. Qed.

Lemma seq_runs_deterministic ms s bs1 s1 bs2 s2 :
  seq_runs ms s bs1 s1 -> seq_runs ms s bs2 s2 -> bs1 = bs2 /\ s1 = s2.
Proof.
  intros H; revert bs2 s2; induction H as [|m ms s b s' bs s'' Hm Hr IH];
    intros bs2 s2 H2; inversion H2; subst; [done |].
  match goal with H : m s = _ |- _ => rewrite Hm in H; injection H as <- <- end.
  destruct (IH _ _ ltac:(eassumption)) as [-> ->]. done.
Qed.

Lemma seq_loop_Done ms c s b s' :
  seq_loop ms c s = Done (b, s') <->
  exists bs, seq_runs ms s bs s' /\ b = default c (last bs).
Proof.
  revert c s. induction ms as [|m ms IH]; intros c s; simpl.
  - split.
    + intros H. st_inv. exists []. split; [constructor | done].
    + intros (bs & Hr & ->). inversion Hr; subst. done.
  - rewrite st_bind_Done. split.
    + intros (c' & s1 & Hm & (bs & Hr & ->)%IH).
      exists (c' :: bs). split; [econstructor; eauto |].
      by rewrite last_flag_cons_default.
    + intros (bs' & Hr & ->). inversion Hr as [|? ? ? b1 s1 bs]; subst.
      exists b1, s1. split; [done |]. apply IH. exists bs.
      split; [done |]. by rewrite last_flag_cons_default.
Qed.

(** A sequence of child runs composes: running [ms1 ++ ms2] is running
    [ms1] and then [ms2] from the flag [ms1] left. *)
Lemma seq_loop_app ms1 ms2 c s :
  seq_loop (ms1 ++ ms2) c s = st_bind (seq_loop ms1 c) (seq_loop ms2) s.
Proof.
  revert c s. induction ms1 as [|m ms1 IH]; intros c s; simpl;
    unfold st_bind, st_ret; [done |].
  destruct (m s) as [[c' s1]| |]; [| done | done]. by rewrite IH.
Qed.

(** More defined children make a more defined sequence. *)
#[global] Instance seq_loop_mono :
  Proper (Forall2 st_le ==> eq ==> st_le) seq_loop.
Proof.
  intros ms1 ms2 Hms c ? <-. revert c.
  induction Hms as [|m1 m2 ms1 ms2 Hm _ IH]; intros c; simpl; [done |].
  apply st_bind_mono; [done | intros c'; apply IH].
Qed.

(** Invariants: whatever every child preserves, the sequence preserves. *)
Lemma seq_loop_preserves (I : State -> Prop) ms c :
  Forall (preserves I) ms -> preserves I (seq_loop ms c).
Proof.
  intros Hms. revert c. induction Hms as [|m ms Hm _ IH]; intros c; simpl.
  - apply triple_ret.
  - eapply triple_bind; [exact Hm | intros; apply IH].
Qed.

(** A sequence faults only through a child. *)
Lemma seq_loop_faults_only P ms c :
  Forall (faults_only P) ms -> faults_only P (seq_loop ms c).
Proof.
  intros Hms. revert c. induction Hms as [|m ms Hm _ IH]; intros c; simpl;
    eauto with pass.
Qed.

(** A child that crashes after its predecessors returned crashes the
    sequence: the predecessors' effects happen first. *)
Lemma seq_loop_app_Crash ms1 m ms2 c s b s1 f :
  seq_loop ms1 c s = Done (b, s1) -> m s1 = Crash f ->
  seq_loop (ms1 ++ m :: ms2) c s = Crash f.
Proof.
  intros H1 Hm. rewrite seq_loop_app, (st_bind_Done_eq _ _ _ _ _ H1). simpl.
  by apply st_bind_Crash.
Qed.

(** Totality: if every child answers from every state, so does the
    sequence. *)
Lemma seq_loop_total ms c :
  Forall (fun m => forall s, exists b s', m s = Done (b, s')) ms ->
  forall s, exists b s', seq_loop ms c s = Done (b, s').
Proof.
  intros Hms. revert c. induction Hms as [|m ms Hm _ IH]; intros c s; simpl.
  - by exists c, s.
  - destruct (Hm s) as (c' & s1 & E). rewrite (st_bind_Done_eq _ _ _ _ _ E).
    apply IH.
Qed.
(** ** Theorems *)

(** C1: [transform] refines the abstract specification: it returns
    [(b, s')] exactly when every child ran once, in order, each from
    the state its predecessor left, ending in [s'], and [b] is the
    flag of the last child ([false] for an empty sequence); the
    earlier flags are discarded, and a [false] never stops the loop. *)
Theorem transform_refines ms s b s' :
  transform ms s = Done (b, s') <->
  exists bs, seq_runs ms s bs s' /\ length bs = length ms /\ b = last_flag bs.
Proof.
  unfold transform, last_flag. rewrite seq_loop_Done. split.
  - intros (bs & Hr & ->). exists bs. eauto using seq_runs_length.
  - intros (bs & Hr & _ & ->). eauto.
Qed.
End Transform.

(** C13: in a debug build the constructor succeeds exactly when every
    argument is non-null, keeping them in argument order, and otherwise
    aborts on the assertion [assert(cur)]. *)
Theorem mkSequence_debug {T} (tf : list (option T)) :
  mkSequence false tf =
  if forallb (fun o => bool_decide (is_Some o)) tf then inr tf
  else inl (AssertionFailed "cur").
Proof.
  unfold mkSequence. induction tf as [|[t|] tf IH]; simpl; [done | | done].
  destruct (assert_nonnull tf), (forallb _ tf); congruence.
Qed.
End RamTransformerSequence.
