(* ===== verification/Loop.v ===== *)
(** * [RamLoopTransformer] (src/src/ram/transform/Loop.h)

    [transform] calls [loop->apply(tU)] until it returns [false], counting
    the [true] results in [int ctr], and returns [ctr > 0].  The body is
    given as its [apply] computation.  [while_loop] takes fuel (one unit
    per call of the body); the counter is a 32-bit [int] ([int_succ]).
    [stabilises k s s'] is the abstract specification: the body reports
    [true] [k] times and then [false], ending in [s']. *)

From S2P Require Import Prelude.

Module RamLoopTransformer.

Definition getName : string := "RamLoopTransformer".

Section Transform.
Context {State : Type} (loop : St State bool).

(** [while (loop->apply(tU)) { ctr++; }] *)
Fixpoint while_loop (fuel : nat) (ctr : Z) : St State Z :=
  match fuel with
  | O => out_of_fuel
  | S fuel' =>
      do changed <- loop ;
      if changed then while_loop fuel' (int_succ ctr) else st_ret ctr
  end.

(** [RamLoopTransformer::transform]: [int ctr = 0; ...; return ctr > 0;]. *)
Definition transform (fuel : nat) : St State bool :=
  do ctr <- while_loop fuel 0%Z ;
  st_ret (ctr >? 0)%Z.

(** ** Abstract specification *)

Inductive stabilises : nat -> State -> State -> Prop :=
| stabilises_now s s' :
    loop s = Done (false, s') -> stabilises 0 s s'
| stabilises_step k s s1 s' :
    loop s = Done (true, s1) -> stabilises k s1 s' -> stabilises (S k) s s'.

(** [changes k s s1]: the body reports [true] [k] times in a row, from
    [s] to [s1]. *)
Inductive changes : nat -> State -> State -> Prop :=
| changes_now s : changes 0 s s
| changes_step k s s1 s2 :
    loop s = Done (true, s1) -> changes k s1 s2 -> changes (S k) s s2.

(** The flag [transform] reports after [k] changing iterations. *)
Definition loop_flag (k : nat) : bool := (int32_wrap (Z.of_nat k) >? 0)%Z.

(** ** Lemmas *)

Lemma stabilises_deterministic k1 k2 s s1 s2 :
  stabilises k1 s s1 -> stabilises k2 s s2 -> k1 = k2 /\ s1 = s2.
Proof.
  intros H; revert k2 s2.
  induction H as [s s' E|k s s1 s' E H IH]; intros k2 s2 H2;
    inversion H2 as [? ? E2|? ? ? ? E2 H2']; subst; rewrite E in E2; try discriminate.
  - by injection E2 as ->.
  - injection E2 as <-. destruct (IH _ _ H2') as [-> ->]. done.
Qed.

Lemma while_loop_complete k s s' :
  stabilises k s s' ->
  forall fuel ctr, k < fuel ->
  while_loop fuel ctr s = Done (Nat.iter k int_succ ctr, s').
Proof.
  induction 1 as [s s' E|k s s1 s' E H IH]; intros [|fuel] ctr Hf; try lia;
    simpl; rewrite (st_bind_Done_eq _ _ _ _ _ E); [done |].
  rewrite IH by lia. by rewrite iter_shift.
Qed.

Lemma while_loop_short k s s' :
  stabilises k s s' -> forall fuel ctr, fuel <= k -> while_loop fuel ctr s = OutOfFuel.
Proof.
  induction 1 as [s s' E|k s s1 s' E H IH]; intros [|fuel] ctr Hf; try lia;
    simpl; try done.
  rewrite (st_bind_Done_eq _ _ _ _ _ E). apply IH. lia.
Qed.

Lemma while_loop_sound fuel ctr s c s' :
  while_loop fuel ctr s = Done (c, s') ->
  exists k, k < fuel /\ stabilises k s s' /\ c = Nat.iter k int_succ ctr.
Proof.
  revert ctr s. induction fuel as [|fuel IH]; intros ctr s H; simpl in H; st_inv.
  destruct x; st_inv.
  - destruct (IH _ _ H) as (k & Hk & Hs & ->). exists (S k).
    split_and!; [lia | econstructor; eauto | by rewrite iter_shift].
  - exists 0. split_and!; [lia | by constructor | done].
Qed.

Lemma transform_Done fuel s b s' :
  transform fuel s = Done (b, s') <->
  exists ctr, while_loop fuel 0%Z s = Done (ctr, s') /\ b = (ctr >? 0)%Z.
Proof.
  unfold transform. rewrite st_bind_Done. split.
  - intros (ctr & s1 & H & Hr). st_inv. eauto.
  - intros (ctr & H & ->). eauto.
Qed.

Lemma while_loop_preserves (I : State -> Prop) fuel ctr :
  preserves I loop -> preserves I (while_loop fuel ctr).
Proof.
  intros Hl. revert ctr. induction fuel as [|fuel IH]; intros ctr s c s' Hs H;
    simpl in H; st_inv.
  assert (I x0) by (eapply Hl; eauto).
  destruct x; [eapply IH; eauto | st_inv; done].
Qed.

Lemma while_loop_faults_only P fuel ctr :
  faults_only P loop -> faults_only P (while_loop fuel ctr).
Proof.
  intros Hl. revert ctr. induction fuel as [|fuel IH]; intros ctr; simpl;
    [auto with pass | apply faults_only_bind; [done | intros []; auto with pass]].
Qed.

Lemma transform_faults_only P fuel : faults_only P loop -> faults_only P (transform fuel).
Proof. intros Hl. unfold transform. eauto using while_loop_faults_only with pass. Qed.

(** The body is called before any test: a crashing body crashes the loop. *)
Lemma transform_Crash fuel s f : loop s = Crash f -> transform (S fuel) s = Crash f.
Proof. intros H. unfold transform. simpl. by do 2 apply st_bind_Crash. Qed.

Lemma while_loop_Crash k s s1 f :
  changes k s s1 -> loop s1 = Crash f ->
  forall fuel ctr, k < fuel -> while_loop fuel ctr s = Crash f.
Proof.
  induction 1 as [s|k s s1 s2 E _ IH]; intros Hf [|fuel] ctr Hk; try lia; simpl.
  - by apply st_bind_Crash.
  - rewrite (st_bind_Done_eq _ _ _ _ _ E). apply IH; [done | lia].
Qed.

Lemma transform_preserves (I : State -> Prop) fuel :
  preserves I loop -> preserves I (transform fuel).
Proof.
  intros Hl. unfold transform. eapply triple_bind;
    [apply while_loop_preserves; exact Hl | intros; apply triple_ret].
Qed.
Lemma loop_flag_small k :
  (Z.of_nat k <= INT_MAX)%Z -> loop_flag k = bool_decide (0 < k).
Proof.
  intros Hk. unfold loop_flag. rewrite int32_wrap_small by (unfold INT_MIN; lia).
  rewrite Z.gtb_ltb.
  destruct (Z.ltb_spec 0 (Z.of_nat k)), (bool_decide_reflect (0 < k)); done || lia.
Qed.

Lemma loop_flag_overflow k : Z.of_nat k = (2 ^ 31)%Z -> loop_flag k = false.
Proof. intros Hk. unfold loop_flag. rewrite Hk. reflexivity. Qed.

Lemma stabilises_from_rank (rank : State -> nat) :
  (forall s, exists b s', loop s = Done (b, s')) ->
  (forall s s', loop s = Done (true, s') -> rank s' < rank s) ->
  forall n s, rank s <= n -> exists k s', k <= rank s /\ stabilises k s s'.
Proof.
  intros Htot Hrank n. induction n as [|n IH]; intros s Hs;
    destruct (Htot s) as ([|] & s1 & E).
  - pose proof (Hrank _ _ E). lia.
  - exists 0, s1. split; [lia | by constructor].
  - pose proof (Hrank _ _ E). destruct (IH s1) as (k & s' & Hk & Hst); [lia |].
    exists (S k), s'. split; [lia | econstructor; eauto].
  - exists 0, s1. split; [lia | by constructor].
Qed.

(** ** Theorems *)

(** C2: evaluation then test, exactly [k + 1] calls: when the body
    reports [true] [k] times and then [false], [transform] answers
    [loop_flag k] in the state after the last call as soon as the fuel
    allows [k + 1] calls of the body, and has no answer with less. *)
Theorem transform_exact k s s' :
  stabilises k s s' ->
  forall fuel, transform fuel s =
               if decide (k < fuel) then Done (loop_flag k, s') else OutOfFuel.
Proof.
  intros H fuel. unfold transform, loop_flag. case_decide.
  - rewrite (st_bind_Done_eq _ _ _ _ _ (while_loop_complete _ _ _ H _ _ H0)).
    by rewrite int_succ_iter.
  - apply st_bind_OutOfFuel. apply (while_loop_short _ _ _ H). lia.
Qed.

(** C7: every answer of [transform] comes from a run of the abstract
    specification: some [k] below the fuel with [k] changing
    iterations and one stable one, and the flag is [loop_flag k]. *)
Theorem transform_sound fuel s b s' :
  transform fuel s = Done (b, s') ->
  exists k, k < fuel /\ stabilises k s s' /\ b = loop_flag k.
Proof.
  intros (ctr & H & ->)%transform_Done.
  destruct (while_loop_sound _ _ _ _ _ H) as (k & Hk & Hs & ->).
  exists k. split_and!; [done | done |]. unfold loop_flag. by rewrite int_succ_iter.
Qed.

(** C3: below 2^31 changing iterations the flag is the intended one:
    [true] exactly when at least one iteration reported a change. *)
Theorem transform_reports_change k s s' fuel :
  stabilises k s s' -> (Z.of_nat k < 2 ^ 31)%Z -> k < fuel ->
  transform fuel s = Done (bool_decide (0 < k), s').
Proof.
  intros H Hk Hf. rewrite (transform_exact _ _ _ H), decide_True by done.
  rewrite loop_flag_small; [done | unfold INT_MAX; lia].
Qed.

(** C5: [ctr++] overflows: after exactly 2^31 changing iterations the
    32-bit counter wraps to [INT_MIN] and [transform] reports [false]
    although the body changed the unit. *)
Theorem transform_counter_overflow k s s' :
  stabilises k s s' -> Z.of_nat k = (2 ^ 31)%Z ->
  transform (S k) s = Done (false, s').
Proof.
  intros H Hk. rewrite (transform_exact _ _ _ H), decide_True by lia.
  by rewrite loop_flag_overflow.
Qed.

(** C11: there is no iteration cap: a body that always reports a change
    makes [transform] run out of any fuel. *)
Theorem transform_diverges :
  (forall s, exists s', loop s = Done (true, s')) ->
  forall fuel s, transform fuel s = OutOfFuel.
Proof.
  intros Hl fuel s. apply st_bind_OutOfFuel. revert s. generalize 0%Z as ctr.
  induction fuel as [|fuel IH]; intros ctr s; [done |].
  destruct (Hl s) as (s1 & E). simpl. rewrite (st_bind_Done_eq _ _ _ _ _ E). apply IH.
Qed.

(** C10: termination: if the body always answers and every change
    decreases a ranking [rank], then [transform] answers with fuel
    [rank s + 1]. *)
Theorem transform_terminates (rank : State -> nat) :
  (forall s, exists b s', loop s = Done (b, s')) ->
  (forall s s', loop s = Done (true, s') -> rank s' < rank s) ->
  forall s, exists b s', transform (S (rank s)) s = Done (b, s').
Proof.
  intros Htot Hrank s.
  destruct (stabilises_from_rank rank Htot Hrank (rank s) s) as (k & s' & Hk & H);
    [done |].
  exists (loop_flag k), s'. rewrite (transform_exact _ _ _ H), decide_True by lia.
  done.
Qed.
(** C27: round trip of the counter: the [int ctr] the loop ends with,
    read back as a natural number, is the number of changing iterations,
    as long as that number fits in an [int]; it is never negative then. *)
Theorem while_loop_counter_roundtrip k s s' fuel :
  stabilises k s s' -> k < fuel -> (Z.of_nat k <= INT_MAX)%Z ->
  exists ctr, while_loop fuel 0%Z s = Done (ctr, s') /\ (0 <= ctr)%Z /\ Z.to_nat ctr = k.
Proof.
  intros H Hf Hk. pose proof (while_loop_complete k s s' H fuel 0%Z Hf) as E.
  rewrite int_succ_iter, int32_wrap_small in E by (unfold INT_MIN; lia).
  exists (Z.of_nat k). split_and!; [done | lia | lia].
Qed.

(** C23: a fault of the body propagates unchanged: if the body reports
    [true] [k] times and then faults, [transform] faults with the same
    fault once the fuel allows the [k + 1] calls; nothing is caught and
    no partial result is returned. *)
Theorem transform_crash_propagates k s s1 f fuel :
  changes k s s1 -> loop s1 = Crash f -> k < fuel -> transform fuel s = Crash f.
Proof.
  intros Hc Hf Hk. unfold transform. apply st_bind_Crash.
  by apply (while_loop_Crash k s s1).
Qed.
End Transform.

(** ** A concrete body: a counter that changes until it reaches [n] *)

Definition count_to (n : Z) : St Z bool :=
  fun z => if (z <? n)%Z then Done (true, (z + 1)%Z) else Done (false, z).

Lemma count_to_stabilises n k :
  (Z.of_nat k <= n)%Z -> stabilises (count_to n) k (n - Z.of_nat k)%Z n.
Proof.
  induction k as [|k IH]; intros Hk.
  - constructor. unfold count_to. rewrite Z.sub_0_r, Z.ltb_irrefl. done.
  - econstructor.
    + unfold count_to. rewrite (proj2 (Z.ltb_lt _ _)) by lia. reflexivity.
    + replace (n - Z.of_nat (S k) + 1)%Z with (n - Z.of_nat k)%Z by lia. apply IH. lia.
Qed.

Lemma transform_exact_witness :
  stabilises (count_to 3) 3 0%Z 3%Z /\
  forall fuel, transform (count_to 3) fuel 0%Z =
               if decide (3 < fuel) then Done (loop_flag 3, 3%Z) else OutOfFuel.
Proof.
  assert (H : stabilises (count_to 3) 3 0%Z 3%Z) by (apply (count_to_stabilises 3 3); lia).
  split; [exact H | apply (transform_exact (count_to 3) 3 0%Z 3%Z H)].
Defined.

Lemma transform_sound_witness :
  transform (count_to 2) 4 0%Z = Done (true, 2%Z) /\
  exists k, k < 4 /\ stabilises (count_to 2) k 0%Z 2%Z /\ true = loop_flag k.
Proof.
  assert (H : transform (count_to 2) 4 0%Z = Done (true, 2%Z)) by (vm_compute; reflexivity).
  split; [exact H | apply (transform_sound (count_to 2) 4 0%Z true 2%Z H)].
Defined.

Lemma transform_reports_change_witness :
  stabilises (count_to 5) 5 0%Z 5%Z /\ (Z.of_nat 5 < 2 ^ 31)%Z /\ 5 < 6 /\
  transform (count_to 5) 6 0%Z = Done (bool_decide (0 < 5), 5%Z).
Proof.
  assert (H : stabilises (count_to 5) 5 0%Z 5%Z) by (apply (count_to_stabilises 5 5); lia).
  split_and!; [exact H | lia | lia |].
  apply (transform_reports_change (count_to 5) 5 0%Z 5%Z 6 H); lia.
Defined.

Lemma while_loop_counter_roundtrip_witness :
  stabilises (count_to 7) 7 0%Z 7%Z /\ 7 < 8 /\ (Z.of_nat 7 <= INT_MAX)%Z /\
  exists ctr, while_loop (count_to 7) 8 0%Z 0%Z = Done (ctr, 7%Z) /\ (0 <= ctr)%Z /\ Z.to_nat ctr = 7.
Proof.
  assert (H : stabilises (count_to 7) 7 0%Z 7%Z) by (apply (count_to_stabilises 7 7); lia).
  assert (Hf : 7 < 8) by lia.
  assert (Hk : (Z.of_nat 7 <= INT_MAX)%Z) by (unfold INT_MAX; lia).
  split_and!; [exact H | exact Hf | exact Hk |
               exact (while_loop_counter_roundtrip (count_to 7) 7 0%Z 7%Z 8 H Hf Hk)].
Defined.

(** 2^31 changing iterations of the counter, from [0]. *)
Lemma count_to_overflow_run :
  stabilises (count_to (2 ^ 31)) (Z.to_nat (2 ^ 31)) 0%Z (2 ^ 31)%Z.
Proof.
  pose proof (count_to_stabilises (2 ^ 31) (Z.to_nat (2 ^ 31))) as H.
  rewrite Z2Nat.id in H by lia. rewrite Z.sub_diag in H. apply H. lia.
Qed.

Lemma transform_counter_overflow_witness :
  Z.of_nat (Z.to_nat (2 ^ 31)) = (2 ^ 31)%Z /\
  transform (count_to (2 ^ 31)) (S (Z.to_nat (2 ^ 31))) 0%Z = Done (false, (2 ^ 31)%Z).
Proof.
  assert (Hk : Z.of_nat (Z.to_nat (2 ^ 31)) = (2 ^ 31)%Z) by lia.
  split; [exact Hk |].
  exact (transform_counter_overflow _ _ _ _ count_to_overflow_run Hk).
Defined.

(** A body that always reports a change. *)
Definition always_changes : St Z bool := fun z => Done (true, (z + 1)%Z).

Lemma transform_diverges_witness :
  (forall s, exists s', always_changes s = Done (true, s')) /\
  transform always_changes 1000 0%Z = OutOfFuel.
Proof.
  assert (H : forall s, exists s', always_changes s = Done (true, s'))
    by (intros s; eexists; reflexivity).
  split; [exact H | apply (transform_diverges always_changes H)].
Defined.

Lemma transform_terminates_witness :
  (forall s, exists b s', count_to 4 s = Done (b, s')) /\
  (forall s s', count_to 4 s = Done (true, s') ->
                Z.to_nat (4 - s') < Z.to_nat (4 - s)) /\
  exists b s', transform (count_to 4) (S (Z.to_nat (4 - 0))) 0%Z = Done (b, s').
Proof.
  assert (Htot : forall s, exists b s', count_to 4 s = Done (b, s'))
    by (intros s; unfold count_to; destruct (s <? 4)%Z; eauto).
  assert (Hrank : forall s s', count_to 4 s = Done (true, s') ->
                               Z.to_nat (4 - s') < Z.to_nat (4 - s)).
  { unfold count_to. intros s s' H. destruct (Z.ltb_spec s 4); [| discriminate].
    injection H as <-. lia. }
  split_and!; [exact Htot | exact Hrank |].
  exact (transform_terminates (count_to 4) (fun s => Z.to_nat (4 - s)) Htot Hrank 0%Z).
Defined.

(** More defined body and more fuel make a more defined loop. *)
#[global] Instance while_loop_mono {State} :
  Proper (st_le ==> le ==> eq ==> st_le) (@while_loop State).
Proof.
  intros b1 b2 Hb f1 f2 Hf ctr ? <-. revert f2 Hf ctr.
  induction f1 as [|f1 IH]; intros [|f2] Hf ctr s H; simpl in *;
    [by destruct H | by destruct H | lia |].
  revert s H. apply st_bind_mono; [done |].
  intros [|]; [apply IH; lia | done].
Qed.

#[global] Instance transform_mono {State} :
  Proper (st_le ==> le ==> st_le) (@transform State).
Proof.
  intros b1 b2 Hb f1 f2 Hf. unfold transform.
  apply st_bind_mono; [by apply while_loop_mono | done].
Qed.
(** A body that counts up to [3] and then faults. *)
Definition count_then_fault : St nat bool :=
  fun n => if (n <? 3)%nat then Done (true, S n) else Crash NullDereference.

Lemma transform_crash_propagates_witness :
  changes count_then_fault 3 0 3 /\ count_then_fault 3 = Crash NullDereference /\ 3 < 4 /\
  transform count_then_fault 4 0 = Crash NullDereference.
Proof.
  assert (Hc : changes count_then_fault 3 0 3) by (repeat econstructor).
  assert (Hf : count_then_fault 3 = Crash NullDereference) by reflexivity.
  assert (Hk : 3 < 4) by lia.
  split_and!; [exact Hc | exact Hf | exact Hk |
               exact (transform_crash_propagates count_then_fault 3 0 3 _ 4 Hc Hf Hk)].
Defined.
End RamLoopTransformer.
