(* ===== verification/Pipeline.v ===== *)
(** * Pipelines: the composite tree of transformers

    A pipeline is a tree whose leaves are rewrite passes and whose inner
    nodes are [RamTransformerSequence] (owning [VecOwn<RamTransformer>])
    and [RamLoopTransformer] (owning [Own<RamTransformer>]).  An owned
    pointer may be null, so children are [option RamTransformer]; calling
    [apply] through a null one ([cur->apply], [loop->apply]) crashes.
    [apply] is the virtual dispatch of [RamTransformer::apply]: the base
    wrapper around the node's own [transform], which for a composite calls
    [apply] of its children.  [exec] is the big-step semantics of the
    terminating runs; the interpreter is adequate for it.  This file also
    holds the constructors, well-formedness (no null pointer) and the
    crash behaviour; loops and the cache have files of their own. *)

From S2P Require Import Prelude TranslationUnit Transformer Sequence Loop.

Section Pipeline.
Context {Prog Analysis : Type}.

Abbreviation TU := (TranslationUnit Prog Analysis).
Abbreviation RunS := (Run Prog Analysis).

(** The dynamic type of a [RamTransformer] object; [option] is an owning
    pointer that may be null. *)
Inductive RamTransformer : Type :=
| TLeaf (name : string) (f : TU -> option (TU * bool))
| TSequence (transformers : list (option RamTransformer))
| TLoop (loop : option RamTransformer).

(** [getName()], dispatched on the dynamic type. *)
Definition getName (t : RamTransformer) : string :=
  match t with
  | TLeaf name _ => name
  | TSequence _ => RamTransformerSequence.getName
  | TLoop _ => RamLoopTransformer.getName
  end.

(** [p->apply(tU)] through an owning pointer [p]. *)
Definition deref (call : RamTransformer -> St RunS bool) (p : option RamTransformer)
  : St RunS bool :=
  match p with
  | Some t => call t
  | None => null_deref
  end.

(** [apply()]: the base wrapper around the dynamic [transform()]; [fuel]
    bounds the iterations of every loop. *)
Fixpoint apply (fuel : nat) (t : RamTransformer) {struct t} : St RunS bool :=
  base_apply (getName t)
    (match t with
     | TLeaf name f => leaf_transform name f
     | TSequence ts => RamTransformerSequence.transform (map (deref (apply fuel)) ts)
     | TLoop body => RamLoopTransformer.transform (deref (apply fuel) body) fuel
     end).

(** [RamLoopTransformer(Own<RamTransformer> tLoop) : loop(std::move(tLoop))]:
    the body is stored without any check. *)
Definition mkLoop (tLoop : option RamTransformer) : RamTransformer := TLoop tLoop.

(** [RamTransformerSequence(Own<Tfs>&&... tf)]: the checked constructor,
    then the node. *)
Definition mkSeq (ndebug : bool) (tf : list (option RamTransformer))
  : RamTransformerSequence.fatal + RamTransformer :=
  match RamTransformerSequence.mkSequence ndebug tf with
  | inl e => inl e
  | inr transformers => inr (TSequence transformers)
  end.

(** Well-formedness: no owning pointer of the tree is null. *)
Fixpoint wf (t : RamTransformer) : bool :=
  match t with
  | TLeaf _ _ => true
  | TSequence ts => forallb (fun p => match p with Some t' => wf t' | None => false end) ts
  | TLoop (Some body) => wf body
  | TLoop None => false
  end.

(** An owned child satisfies [P], or is null. *)
Definition owned (P : RamTransformer -> Prop) (p : option RamTransformer) : Prop :=
  match p with Some t => P t | None => True end.

(** The names of the leaf passes of a pipeline, in order. *)
Fixpoint leaf_names (t : RamTransformer) : list string :=
  match t with
  | TLeaf name _ => [name]
  | TSequence ts =>
      flat_map (fun p => match p with Some t' => leaf_names t' | None => [] end) ts
  | TLoop (Some body) => leaf_names body
  | TLoop None => []
  end.

Definition owned_names (p : option RamTransformer) : list string :=
  match p with Some t => leaf_names t | None => [] end.

(** ** Big-step semantics of the terminating runs *)

(** [exec t r b r']: applying [t] in state [r] terminates, reports [b]
    and leaves [r'].  [exec_seq ts r c b r']: the elements [ts] run in
    order from flag [c]; [exec_iter body r ctr ctr' r']: the loop, with
    counter [ctr] on entry and [ctr'] on exit.  A null child has no
    rule: it never returns. *)
Inductive exec : RamTransformer -> RunS -> bool -> RunS -> Prop :=
| exec_leaf name f r b r1 :
    leaf_transform name f r = Done (b, r1) ->
    exec (TLeaf name f) r b (after_apply name b r1)
| exec_sequence ts r b r1 :
    exec_seq ts r false b r1 ->
    exec (TSequence ts) r b (after_apply RamTransformerSequence.getName b r1)
| exec_loop body r ctr r1 :
    exec_iter body r 0%Z ctr r1 ->
    exec (TLoop (Some body)) r (ctr >? 0)%Z
         (after_apply RamLoopTransformer.getName (ctr >? 0)%Z r1)
with exec_seq : list (option RamTransformer) -> RunS -> bool -> bool -> RunS -> Prop :=
| exec_seq_nil r c : exec_seq [] r c c r
| exec_seq_cons t ts r c b r1 b' r2 :
    exec t r b r1 -> exec_seq ts r1 b b' r2 -> exec_seq (Some t :: ts) r c b' r2
with exec_iter : RamTransformer -> RunS -> Z -> Z -> RunS -> Prop :=
| exec_iter_stop body r r1 ctr :
    exec body r false r1 -> exec_iter body r ctr ctr r1
| exec_iter_step body r r1 ctr ctr' r2 :
    exec body r true r1 -> exec_iter body r1 (int_succ ctr) ctr' r2 ->
    exec_iter body r ctr ctr' r2.

Scheme exec_mut := Induction for exec Sort Prop
with exec_seq_mut := Induction for exec_seq Sort Prop
with exec_iter_mut := Induction for exec_iter Sort Prop.

(** Induction on pipelines, with the hypothesis on every non-null child. *)
Section RamTransformerInduction.
Variable P : RamTransformer -> Prop.
Hypothesis case_leaf : forall name f, P (TLeaf name f).
Hypothesis case_sequence : forall ts, Forall (owned P) ts -> P (TSequence ts).
Hypothesis case_loop : forall body, owned P body -> P (TLoop body).

Fixpoint RamTransformer_ind' (t : RamTransformer) : P t :=
  let own (p : option RamTransformer) : owned P p :=
    match p as p0 return owned P p0 with
    | Some t' => RamTransformer_ind' t'
    | None => I
    end in
  match t with
  | TLeaf name f => case_leaf name f
  | TSequence ts =>
      case_sequence ts
        ((fix go (l : list (option RamTransformer)) : Forall (owned P) l :=
            match l with
            | [] => Forall_nil_2 _
            | p :: l' => Forall_cons_2 _ p l' (own p) (go l')
            end) ts)
  | TLoop body => case_loop body (own body)
  end.
End RamTransformerInduction.

Combined Scheme exec_mutind from exec_mut, exec_seq_mut, exec_iter_mut.

Lemma Forall_owned (P : RamTransformer -> Prop) ts :
  Forall (owned P) ts <-> forall t, Some t ∈ ts -> P t.
Proof.
  rewrite Forall_forall. split.
  - intros H t Ht. exact (H (Some t) Ht).
  - intros H [t|] Ht; [by apply H | done].
Qed.

(** ** Fuel *)

Lemma deref_mono (c1 c2 : RamTransformer -> St RunS bool) p :
  owned (fun t => st_le (c1 t) (c2 t)) p -> st_le (deref c1 p) (deref c2 p).
Proof. destruct p; simpl; [done | reflexivity]. Qed.

Lemma apply_mono_aux t : forall f1 f2, f1 <= f2 -> st_le (apply f1 t) (apply f2 t).
Proof.
  induction t as [name f|ts IH|body IH] using RamTransformer_ind';
    intros f1 f2 Hf; simpl; apply base_apply_mono.
  - done.
  - apply RamTransformerSequence.seq_loop_mono; [| done].
    induction IH as [|p ts Hp _ IHts]; simpl; constructor; [| done].
    apply deref_mono. destruct p; simpl in *; auto.
  - apply RamLoopTransformer.transform_mono; [| done].
    apply deref_mono. destruct body; simpl in *; auto.
Qed.

(** More fuel never changes an outcome (a result or a crash). *)
#[global] Instance apply_mono : Proper (le ==> eq ==> st_le) apply.
Proof. intros f1 f2 Hf t ? <-. by apply apply_mono_aux. Qed.

Lemma apply_mono_Done f1 f2 t r x :
  f1 <= f2 -> apply f1 t r = Done x -> apply f2 t r = Done x.
Proof. intros Hf. apply st_le_Done. by apply apply_mono. Qed.

Lemma map_apply_mono ts f1 f2 :
  f1 <= f2 -> Forall2 st_le (map (deref (apply f1)) ts) (map (deref (apply f2)) ts).
Proof.
  intros Hf. induction ts as [|p ts IH]; simpl; constructor; [| done].
  apply deref_mono. destruct p; simpl; [by apply apply_mono | done].
Qed.

(** ** Soundness of the interpreter *)

Lemma seq_loop_exec fuel ts :
  Forall (owned (fun t => forall r b r', apply fuel t r = Done (b, r') -> exec t r b r')) ts ->
  forall c r b r',
    RamTransformerSequence.seq_loop (map (deref (apply fuel)) ts) c r = Done (b, r') ->
    exec_seq ts r c b r'.
Proof.
  induction 1 as [|[t|] ts Ht _ IH]; intros c r b r' H; simpl in H; st_inv.
  - constructor.
  - econstructor; eauto.
Qed.

Lemma while_loop_exec fuel body :
  (forall r b r', apply fuel body r = Done (b, r') -> exec body r b r') ->
  forall n ctr r ctr' r',
    RamLoopTransformer.while_loop (apply fuel body) n ctr r = Done (ctr', r') ->
    exec_iter body r ctr ctr' r'.
Proof.
  intros Hb n. induction n as [|n IH]; intros ctr r ctr' r' H; simpl in H; st_inv.
  destruct x; st_inv; [econstructor; eauto | by constructor; auto].
Qed.

Lemma apply_exec fuel t : forall r b r', apply fuel t r = Done (b, r') -> exec t r b r'.
Proof.
  induction t as [name f|ts IH|[body|] IH] using RamTransformer_ind';
    intros r b r' (r1 & H & ->)%base_apply_Done; simpl.
  - by constructor.
  - constructor. eapply seq_loop_exec; eauto.
  - apply RamLoopTransformer.transform_Done in H as (ctr & H & ->).
    constructor. eapply while_loop_exec; eauto.
  - apply RamLoopTransformer.transform_Done in H as (ctr & H & _).
    destruct fuel; simpl in H; st_inv.
Qed.

(** ** Completeness of the interpreter *)

Lemma exec_apply_all :
  (forall t r b r', exec t r b r' -> exists n, apply n t r = Done (b, r')) /\
  (forall ts r c b r', exec_seq ts r c b r' -> exists n,
     RamTransformerSequence.seq_loop (map (deref (apply n)) ts) c r = Done (b, r')) /\
  (forall body r ctr ctr' r', exec_iter body r ctr ctr' r' -> exists n,
     RamLoopTransformer.while_loop (apply n body) n ctr r = Done (ctr', r')).
Proof.
  apply exec_mutind.
  - intros name f r b r1 H. exists 0. apply base_apply_Done. eauto.
  - intros ts r b r1 _ [n H]. exists n. apply base_apply_Done. eauto.
  - intros body r ctr r1 _ [n H]. exists n. apply base_apply_Done.
    eexists; split; [| reflexivity]. apply RamLoopTransformer.transform_Done. eauto.
  - intros r c. by exists 0.
  - intros t ts r c b r1 b' r2 _ [n1 H1] _ [n2 H2]. exists (max n1 n2). simpl.
    rewrite (st_bind_Done_eq _ _ _ _ _ (apply_mono_Done n1 (max n1 n2) _ _ _ ltac:(lia) H1)).
    eapply st_le_Done; [| exact H2].
    apply RamTransformerSequence.seq_loop_mono; [apply map_apply_mono; lia | done].
  - intros body r r1 ctr _ [n H]. exists (S n). simpl.
    by rewrite (st_bind_Done_eq _ _ _ _ _ (apply_mono_Done n (S n) _ _ _ ltac:(lia) H)).
  - intros body r r1 ctr ctr' r2 _ [n1 H1] _ [n2 H2]. exists (S (max n1 n2)). simpl.
    rewrite (st_bind_Done_eq _ _ _ _ _
               (apply_mono_Done n1 (S (max n1 n2)) _ _ _ ltac:(lia) H1)).
    eapply st_le_Done; [| exact H2].
    apply RamLoopTransformer.while_loop_mono; [apply apply_mono; [lia | done] | lia | done].
Qed.

Lemma exec_apply t r b r' : exec t r b r' -> exists n, apply n t r = Done (b, r').
Proof. apply exec_apply_all. Qed.

Lemma exec_seq_apply ts r c b r' :
  exec_seq ts r c b r' -> exists n,
    RamTransformerSequence.seq_loop (map (deref (apply n)) ts) c r = Done (b, r').
Proof. apply exec_apply_all. Qed.

(** The fuel interpreter is adequate for the big-step semantics:
    a pipeline terminates with flag [b] in state [r'] exactly when
    [apply] returns [(b, r')] for all fuel beyond some bound. *)
Theorem apply_adequate t r b r' :
  exec t r b r' <-> exists n, forall fuel, n <= fuel -> apply fuel t r = Done (b, r').
Proof.
  split.
  - intros [n H]%exec_apply. exists n. intros fuel Hf. by apply (apply_mono_Done n).
  - intros [n H]. apply (apply_exec n). by apply H.
Qed.
(** ** Inversion of sequence runs *)

Lemma exec_seq_app (ts1 ts2 : list (option RamTransformer)) (r : RunS) c b r' :
  exec_seq (ts1 ++ ts2) r c b r' <->
  exists c1 rm, exec_seq ts1 r c c1 rm /\ exec_seq ts2 rm c1 b r'.
Proof.
  revert r c. induction ts1 as [|p ts1 IH]; intros r c; simpl.
  - split; [intros H; exists c, r; split; [constructor | done] |].
    intros (c1 & rm & H1 & H2). inversion H1; subst. done.
  - split.
    + intros H. inversion H as [|t ? ? ? b1 r1 ? ? Ht Hs]; subst.
      apply IH in Hs as (c1 & rm & H1 & H2). exists c1, rm. split; [econstructor; eauto | done].
    + intros (c1 & rm & H1 & H2). inversion H1 as [|t ? ? ? b1 r1 ? ? Ht Hs]; subst.
      econstructor; [exact Ht |]. apply IH. eauto.
Qed.

Lemma exec_seq_nil_inv (r : RunS) c b r' :
  exec_seq [] r c b r' -> b = c /\ r' = r.
Proof. by inversion 1. Qed.

Lemma exec_seq_cons_inv (t : RamTransformer) ts r c b r' :
  exec_seq (Some t :: ts) r c b r' -> exists b1 r1, exec t r b1 r1 /\ exec_seq ts r1 b1 b r'.
Proof. inversion 1; subst. eauto. Qed.

Lemma exec_sequence_inv (ts : list (option RamTransformer)) r b r' :
  exec (TSequence ts) r b r' ->
  exists r1, exec_seq ts r false b r1 /\ r' = after_apply RamTransformerSequence.getName b r1.
Proof. intros H. inversion H; subst. eauto. Qed.

(** ** Determinism *)

(** The big-step semantics is deterministic: a pipeline run from a
    given state has one outcome. *)
Theorem exec_deterministic t r b1 r1 b2 r2 :
  exec t r b1 r1 -> exec t r b2 r2 -> b1 = b2 /\ r1 = r2.
Proof.
  intros H1 H2. apply exec_apply in H1 as [n1 H1], H2 as [n2 H2].
  apply (apply_mono_Done n1 (max n1 n2)) in H1; [| lia].
  apply (apply_mono_Done n2 (max n1 n2)) in H2; [| lia].
  rewrite H1 in H2. by injection H2 as -> ->.
Qed.

(** ** The trace *)

Lemma exec_trace_all :
  (forall t r b r', exec t r b r' ->
     exists l, run_log r' = run_log r ++ l ++ [(getName t, b)]) /\
  (forall ts r c b r', exec_seq ts r c b r' -> exists l, run_log r' = run_log r ++ l) /\
  (forall body r ctr ctr' r', exec_iter body r ctr ctr' r' ->
     exists l, run_log r' = run_log r ++ l).
Proof.
  apply exec_mutind; intros;
    repeat match goal with H : exists _, _ |- _ => destruct H end.
  - apply leaf_transform_Done in e as [_ Hl]. exists [].
    rewrite run_log_after_apply, Hl. reflexivity.
  - exists x. rewrite run_log_after_apply, H, ?app_assoc. reflexivity.
  - exists x. rewrite run_log_after_apply, H, ?app_assoc. reflexivity.
  - exists []. by rewrite app_nil_r.
  - exists (x0 ++ [(getName t, b)] ++ x). rewrite H0, H. rewrite ?app_assoc; reflexivity.
  - exists (x ++ [(getName body, false)]). rewrite H. rewrite ?app_assoc; reflexivity.
  - exists (x0 ++ [(getName body, true)] ++ x). rewrite H0, H. rewrite ?app_assoc; reflexivity.
Qed.

(** C12: [apply] only appends to the trace, and the last line it appends
    is the pass's own name with the flag it returns (children's lines
    come first, since [apply] traces after [transform]). *)
Theorem exec_trace t r b r' :
  exec t r b r' -> exists l, run_log r' = run_log r ++ l ++ [(getName t, b)].
Proof. apply exec_trace_all. Qed.


(** C14: an empty sequence reports [false], does not touch the
    translation unit (no invalidation) and only adds its trace line. *)
Theorem exec_empty_sequence r b r' :
  exec (TSequence []) r b r' <->
  b = false /\ r' = trace_apply RamTransformerSequence.getName false r.
Proof.
  split.
  - intros H. inversion H as [|? ? ? r1 Hs|]; subst.
    inversion Hs; subst. split; reflexivity.
  - intros [-> ->]. apply (exec_sequence [] r false r). constructor.
Qed.

(** ** Every leaf runs *)

Lemma exec_log_grows_all :
  (forall t r b r', exec t r b r' ->
     forall n, count_applies n (run_log r) <= count_applies n (run_log r')) /\
  (forall ts r c b r', exec_seq ts r c b r' ->
     forall n, count_applies n (run_log r) <= count_applies n (run_log r')) /\
  (forall body r ctr ctr' r', exec_iter body r ctr ctr' r' ->
     forall n, count_applies n (run_log r) <= count_applies n (run_log r')).
Proof.
  destruct exec_trace_all as (H1 & H2 & H3). split_and!;
    [intros t r b r' H%H1 n | intros ts r c b r' H%H2 n | intros body r c c' r' H%H3 n];
    destruct H as [l ->]; rewrite !count_applies_app; lia.
Qed.

Lemma exec_applies_leaves_all :
  (forall t r b r', exec t r b r' -> forall n, n ∈ leaf_names t ->
     count_applies n (run_log r) < count_applies n (run_log r')) /\
  (forall ts r c b r', exec_seq ts r c b r' -> forall n, n ∈ flat_map owned_names ts ->
     count_applies n (run_log r) < count_applies n (run_log r')) /\
  (forall body r ctr ctr' r', exec_iter body r ctr ctr' r' -> forall n, n ∈ leaf_names body ->
     count_applies n (run_log r) < count_applies n (run_log r')).
Proof.
  destruct exec_log_grows_all as (G1 & G2 & G3).
  apply exec_mutind; intros.
  - apply leaf_transform_Done in e as [_ Hl].
    simpl in H. apply list_elem_of_singleton in H as ->.
    rewrite run_log_after_apply, count_applies_app, count_applies_self, Hl. lia.
  - rewrite run_log_after_apply, count_applies_app. specialize (H n H0). lia.
  - rewrite run_log_after_apply, count_applies_app. specialize (H n H0). lia.
  - simpl in *. set_solver.
  - simpl in H1. apply elem_of_app in H1 as [Hn|Hn].
    + specialize (H n Hn). specialize (G2 _ _ _ _ _ e0 n). lia.
    + specialize (H0 n Hn). specialize (G1 _ _ _ _ e n). lia.
  - auto.
  - specialize (H n H1). specialize (G3 _ _ _ _ _ e0 n). lia.
Qed.

(** C20: every leaf pass of a pipeline that terminates is applied at
    least once: sequences never skip an element and a loop always calls
    its body, so each leaf's name gains a trace line. *)
Theorem exec_applies_every_leaf t r b r' n :
  exec t r b r' -> n ∈ leaf_names t ->
  count_applies n (run_log r) < count_applies n (run_log r').
Proof. intros H. by apply (proj1 exec_applies_leaves_all _ _ _ _ H). Qed.

(** ** Null pointers *)

(** The faults of a well-formed pipeline are failures of its leaves. *)
Lemma apply_faults_only t fuel (P : fault -> Prop) :
  wf t = true -> (forall n, n ∈ leaf_names t -> P (PassFailure n)) ->
  faults_only P (apply fuel t).
Proof.
  induction t as [name f|ts IH|[body|] IH] using RamTransformer_ind'; simpl;
    intros Hwf HP; apply base_apply_faults_only.
  - eapply faults_only_weaken; [| apply leaf_transform_faults_only].
    intros g ->. apply HP. set_solver.
  - apply RamTransformerSequence.seq_loop_faults_only.
    induction IH as [|[t|] ts Ht _ IHts]; simpl in *; [done | | done].
    apply andb_prop in Hwf as [Ht1 Hts].
    constructor; [apply Ht | apply IHts]; try done; intros n Hn; apply HP; set_solver.
  - by apply RamLoopTransformer.transform_faults_only, IH.
  - done.
Qed.

(** A pipeline without null pointers never dereferences one: every
    fault [apply] can end in is the failure of one of its own leaf
    passes. *)
Theorem wf_only_pass_failures t fuel r f :
  wf t = true -> apply fuel t r = Crash f -> exists n, f = PassFailure n /\ n ∈ leaf_names t.
Proof.
  intros Hwf. apply (apply_faults_only t fuel (fun g => exists n, g = PassFailure n /\ n ∈ leaf_names t));
    [done | eauto].
Qed.

(** C18: a sequence built in a debug build from well-formed arguments is
    well-formed: the constructor's [assert(cur)] rules out a null
    element, so it can never dereference a null element. *)
Theorem mkSeq_debug_wf tf t :
  Forall (owned (fun t' => wf t' = true)) tf -> mkSeq false tf = inr t -> wf t = true.
Proof.
  unfold mkSeq, RamTransformerSequence.mkSequence. intros Hwf H.
  destruct (RamTransformerSequence.assert_nonnull tf) eqn:E; [done |].
  injection H as <-. apply RamTransformerSequence.assert_nonnull_None in E. simpl.
  apply forallb_forall. intros [t|] Ht; apply list_elem_of_In in Ht.
  - rewrite Forall_forall in Hwf. by apply (Hwf (Some t)).
  - rewrite Forall_forall in E. by destruct (E None Ht).
Qed.

(** C19: a null element of a sequence is dereferenced after the elements
    before it have run: once they terminate, the sequence crashes, with
    any fuel beyond a bound. *)
Theorem sequence_null_crash ts1 ts2 r b r1 :
  exec_seq (map Some ts1) r false b r1 ->
  exists n, forall fuel, n <= fuel ->
    apply fuel (TSequence (map Some ts1 ++ None :: ts2)) r = Crash NullDereference.
Proof.
  intros [n H]%exec_seq_apply. exists n. intros fuel Hf. simpl.
  apply st_bind_Crash. unfold RamTransformerSequence.transform.
  rewrite map_app. simpl.
  eapply RamTransformerSequence.seq_loop_app_Crash; [| reflexivity].
  eapply st_le_Done; [| exact H].
  apply RamTransformerSequence.seq_loop_mono; [by apply map_apply_mono | done].
Qed.

(** [RamLoopTransformer]'s constructor stores a null body without a
    check, and the first [apply] of the loop dereferences it. *)
Theorem mkLoop_null_crash fuel r :
  apply (S fuel) (mkLoop None) r = Crash NullDereference.
Proof. simpl. apply st_bind_Crash. by apply RamLoopTransformer.transform_Crash. Qed.
End Pipeline.

Arguments RamTransformer : clear implicits.
