(* ===== verification/PipelineLoops.v ===== *)
(** * Loops in pipelines

    A loop node [TLoop (Some body)] of a pipeline against the loop
    specification: [iterates body k r r'] (the body reports [true] [k]
    times, then [false]).  The refinement of the specification, the
    number of applications read off the trace, honesty (a [false] flag
    means an unchanged program), the spec's convergence law for loops,
    and compositional termination under ranking functions. *)

From S2P Require Import Prelude TranslationUnit Transformer Sequence Loop Pipeline.

Section PipelineLoops.
Context {Prog Analysis : Type}.

Abbreviation TU := (TranslationUnit Prog Analysis).
Abbreviation RunS := (Run Prog Analysis).
Abbreviation RamTransformer := (RamTransformer Prog Analysis).

(** ** Loops in pipelines *)

(** The body of a loop reports [true] [k] times and then [false]. *)
Inductive iterates (body : RamTransformer) : nat -> RunS -> RunS -> Prop :=
| iterates_stop r r1 : exec body r false r1 -> iterates body 0 r r1
| iterates_step k r r1 r2 :
    exec body r true r1 -> iterates body k r1 r2 -> iterates body (S k) r r2.

Lemma exec_iter_iterates body r ctr ctr' r' :
  exec_iter body r ctr ctr' r' ->
  exists k, iterates body k r r' /\ ctr' = Nat.iter k int_succ ctr.
Proof.
  induction 1 as [body r r1 ctr H|body r r1 ctr ctr' r2 H _ (k & Hk & ->)].
  - exists 0. split; [by constructor | done].
  - exists (S k). split; [econstructor; eauto | by rewrite iter_shift].
Qed.

Lemma iterates_exec_iter body k r r' :
  iterates body k r r' -> forall ctr, exec_iter body r ctr (Nat.iter k int_succ ctr) r'.
Proof.
  induction 1 as [r r1 H|k r r1 r2 H _ IH]; intros ctr; [by constructor |].
  econstructor; [exact H |].
  change (Nat.iter (S k) int_succ ctr) with (int_succ (Nat.iter k int_succ ctr)).
  rewrite <- iter_shift. apply IH.
Qed.

Lemma exec_loop_inv body r b r' :
  exec (TLoop (Some body)) r b r' ->
  exists k r1, iterates body k r r1 /\ b = RamLoopTransformer.loop_flag k /\
               r' = after_apply RamLoopTransformer.getName b r1.
Proof.
  intros H. inversion H as [| |? ? ctr r1 Hit]; subst.
  destruct (exec_iter_iterates _ _ _ _ _ Hit) as (k & Hk & ->).
  exists k, r1. unfold RamLoopTransformer.loop_flag. by rewrite int_succ_iter.
Qed.

Lemma exec_loop_intro body k r r1 :
  iterates body k r r1 ->
  exec (TLoop (Some body)) r (RamLoopTransformer.loop_flag k)
       (after_apply RamLoopTransformer.getName (RamLoopTransformer.loop_flag k) r1).
Proof.
  intros Hk. pose proof (iterates_exec_iter _ _ _ _ Hk 0%Z) as H.
  unfold RamLoopTransformer.loop_flag. rewrite <- int_succ_iter. by constructor.
Qed.

(** C6: a loop node of a pipeline implements the loop specification:
    it terminates exactly when its body reports [true] some [k] times
    and then [false], and it reports [loop_flag k], the value of
    [ctr > 0] for the 32-bit counter. *)
Theorem exec_loop_refines body r b r' :
  exec (TLoop (Some body)) r b r' <->
  exists k r1, iterates body k r r1 /\ b = RamLoopTransformer.loop_flag k /\
               r' = after_apply RamLoopTransformer.getName b r1.
Proof.
  split; [apply exec_loop_inv |].
  intros (k & r1 & Hk & -> & ->). by apply exec_loop_intro.
Qed.

(** [body_trace body cs l]: [l] is the trace of one application of
    [body] per flag of [cs], in order, each ending with the body's own
    trace line carrying that flag. *)
Inductive body_trace (body : RamTransformer) : list bool -> list event -> Prop :=
| body_trace_nil : body_trace body [] []
| body_trace_cons c cs l l' :
    body_trace body cs l' -> body_trace body (c :: cs) (l ++ [(getName body, c)] ++ l').

Lemma iterates_trace body k r r1 :
  iterates body k r r1 -> exists l,
    body_trace body (replicate k true ++ [false]) l /\ run_log r1 = run_log r ++ l.
Proof.
  induction 1 as [r r1 H|k r r1 r2 H _ (l' & Hl' & E')];
    destruct (proj1 exec_trace_all _ _ _ _ H) as (l & El).
  - exists (l ++ [(getName body, false)] ++ []). split.
    + repeat constructor.
    + by rewrite El, app_nil_r.
  - exists (l ++ [(getName body, true)] ++ l'). split.
    + by constructor.
    + by rewrite E', El, <- !app_assoc.
Qed.

(** C17: the trace of a loop node reads back its iterations: a run that
    reports [b] consists of [k] applications of the body that report
    [true] and one that reports [false] (each ending with the body's own
    line), then the loop's own line, with [b] the flag of [k]
    iterations. *)
Theorem loop_trace body r b r' :
  exec (TLoop (Some body)) r b r' ->
  exists k r1 l, iterates body k r r1 /\ b = RamLoopTransformer.loop_flag k /\
    body_trace body (replicate k true ++ [false]) l /\
    run_log r' = run_log r ++ l ++ [(RamLoopTransformer.getName, b)].
Proof.
  intros (k & r1 & Hk & -> & ->)%exec_loop_inv.
  destruct (iterates_trace _ _ _ _ Hk) as (l & Hl & E).
  exists k, r1, l. split_and!; [done | done | done |].
  by rewrite run_log_after_apply, E, <- app_assoc.
Qed.

(** The last element of a sequence decides its flag. *)
Lemma exec_seq_last (ts : list RamTransformer) t r c b r' :
  exec_seq (map Some ts ++ [Some t]) r c b r' ->
  exists c1 r1, exec_seq (map Some ts) r c c1 r1 /\ exec t r1 b r'.
Proof.
  intros (c1 & r1 & H1 & H2)%exec_seq_app.
  apply exec_seq_cons_inv in H2 as (b1 & r2 & Ht & [-> ->]%exec_seq_nil_inv). eauto.
Qed.

(** C15: premature convergence, in general (the open question of spec
    section 9): a loop around a sequence whose last element never reports
    a change runs the sequence exactly once and reports [false], whatever
    the earlier elements did to the program or reported. *)
Theorem loop_stops_at_stable_last (ts : list RamTransformer) t r b r' :
  (forall q c q', exec t q c q' -> c = false) ->
  exec (TLoop (Some (TSequence (map Some ts ++ [Some t])))) r b r' ->
  b = false /\ exists r1, exec (TSequence (map Some ts ++ [Some t])) r false r1 /\
                          r' = after_apply RamLoopTransformer.getName false r1.
Proof.
  intros Ht (k & r1 & Hk & -> & ->)%exec_loop_inv.
  inversion Hk as [? ? H0|k' ? q ? H0 _]; subst; [split; [reflexivity | eauto] |].
  apply exec_sequence_inv in H0 as (q1 & Hq & _).
  apply exec_seq_last in Hq as (c1 & q2 & _ & Hq). by apply Ht in Hq.
Qed.

(** A pass is honest when reporting [false] means the program is
    unchanged. *)
Definition honest (t : RamTransformer) : Prop :=
  forall r r', exec t r false r' -> program (run_tu r') = program (run_tu r).

(** C8: a loop around an honest body is honest, unless the body
    reported a change 2^31 times or more (then the 32-bit counter can
    wrap to a non-positive value and the loop reports [false] after
    changing the program). *)
Theorem loop_honest body r r' :
  honest body -> exec (TLoop (Some body)) r false r' ->
  program (run_tu r') = program (run_tu r) \/
  exists k r1, iterates body k r r1 /\ (2 ^ 31 <= Z.of_nat k)%Z.
Proof.
  intros Hb (k & r1 & Hk & Hf & ->)%exec_loop_inv.
  destruct (decide (2 ^ 31 <= Z.of_nat k)%Z) as [Hbig|Hsmall]; [right; eauto |].
  left. rewrite RamLoopTransformer.loop_flag_small in Hf by (unfold INT_MAX; lia).
  inversion Hk as [? ? Hb0|k' ? ? ? ? ?]; subst.
  - unfold after_apply. simpl. by apply Hb.
  - rewrite bool_decide_true in Hf by lia. discriminate.
Qed.

(** A pass whose flag depends only on the program: from two runs with the
    same program, it reports the same flag. *)
Definition flag_determined (t : RamTransformer) : Prop :=
  forall r1 r2 b r1', program (run_tu r1) = program (run_tu r2) ->
                      exec t r1 b r1' -> exists r2', exec t r2 b r2'.

(** C16: the spec's convergence law holds for loops: if a loop around an
    honest body whose flag depends only on the program reports [false],
    applying it again at once reports [false] again, unless the first
    application overflowed the 32-bit counter (2^31 changes or more). *)
Theorem loop_converged_stays body r r' :
  honest body -> flag_determined body -> exec (TLoop (Some body)) r false r' ->
  (exists r'', exec (TLoop (Some body)) r' false r'') \/
  exists k r1, iterates body k r r1 /\ (2 ^ 31 <= Z.of_nat k)%Z.
Proof.
  intros Hh Hd (k & r1 & Hk & Hf & ->)%exec_loop_inv.
  destruct (decide (2 ^ 31 <= Z.of_nat k)%Z) as [Hbig|Hsmall]; [right; eauto |].
  left. rewrite RamLoopTransformer.loop_flag_small in Hf by (unfold INT_MAX; lia).
  inversion Hk as [? ? Hb0|k' ? ? ? ? ?]; subst;
    [| rewrite bool_decide_true in Hf by lia; discriminate].
  destruct (Hd r (after_apply RamLoopTransformer.getName false r1) false r1)
    as (r2 & Hr2); [unfold after_apply; simpl; symmetry; by apply Hh | done |].
  eexists. apply (exec_loop_intro body 0). by constructor.
Qed.

(** A leaf whose rewrite function reports [false] only when it leaves
    the program as it was. *)
Definition leaf_honest (f : TU -> option (TU * bool)) : Prop :=
  forall tu tu', f tu = Some (tu', false) -> program tu' = program tu.

Lemma leaf_honest_exec name f : leaf_honest f -> honest (TLeaf name f).
Proof.
  intros Hf r r' H. inversion H as [? ? ? ? r1 E| |]; subst.
  apply leaf_transform_Done in E as [E _]. by apply (Hf _ _ E).
Qed.

(** A leaf whose flag is a function of the program. *)
Lemma leaf_flag_determined name (f : TU -> option (TU * bool)) :
  (forall tu1 tu2 tu1' b, program tu1 = program tu2 -> f tu1 = Some (tu1', b) ->
     exists tu2', f tu2 = Some (tu2', b)) ->
  flag_determined (TLeaf name f).
Proof.
  intros Hf r1 r2 b r1' Hp H. inversion H as [? ? ? ? r0 E| |]; subst.
  apply leaf_transform_Done in E as [E _].
  destruct (Hf _ _ _ _ Hp E) as (tu2 & E2).
  exists (after_apply name b (mkRun tu2 (run_log r2))). constructor.
  apply leaf_transform_Done. split; [exact E2 | reflexivity].
Qed.

(** ** Termination *)

(** A sufficient condition for termination: every loop has a ranking
    function on the run state that each changing iteration decreases. *)
Inductive converges : RamTransformer -> Prop :=
| converges_leaf name f : leaf_total f -> converges (TLeaf name f)
| converges_sequence ts :
    Forall is_Some ts -> (forall t, Some t ∈ ts -> converges t) ->
    converges (TSequence ts)
| converges_loop body (rank : RunS -> nat) :
    converges body ->
    (forall r r', exec body r true r' -> rank r' < rank r) ->
    converges (TLoop (Some body)).

Lemma iterates_from_rank body (rank : RunS -> nat) :
  (forall r, exists b r', exec body r b r') ->
  (forall r r', exec body r true r' -> rank r' < rank r) ->
  forall n r, rank r <= n -> exists k r', iterates body k r r'.
Proof.
  intros Htot Hrank n. induction n as [|n IH]; intros r Hr;
    destruct (Htot r) as ([|] & r1 & E).
  - pose proof (Hrank _ _ E). lia.
  - exists 0, r1. by constructor.
  - pose proof (Hrank _ _ E). destruct (IH r1) as (k & r' & Hk); [lia |].
    exists (S k), r'. econstructor; eauto.
  - exists 0, r1. by constructor.
Qed.

(** C9: compositional termination: a pipeline whose loops all have a
    decreasing ranking function terminates from every state. *)
Theorem exec_total t : converges t -> forall r, exists b r', exec t r b r'.
Proof.
  induction t as [name f|ts IH|[body|] IH] using RamTransformer_ind'; intros Ht r;
    inversion Ht as [? ? Hf|? Hsome Hts|? rank Hb Hrank]; subst.
  - destruct (Hf (run_tu r)) as [[tu' b] E].
    exists b, (after_apply name b (mkRun tu' (run_log r))). constructor.
    apply leaf_transform_Done. by rewrite E.
  - assert (forall c r, exists b r', exec_seq ts r c b r') as Hseq.
    { clear Ht. induction IH as [|[t|] ts Ht1 _ IHts]; intros c r0;
        [by eexists _, _; constructor | | by inversion Hsome as [|? ? []]].
      inversion Hsome; subst.
      destruct (Ht1 (Hts t ltac:(set_solver)) r0) as (b & r1 & E).
      destruct (IHts ltac:(done) ltac:(set_solver) b r1) as (b' & r2 & E').
      exists b', r2. econstructor; eauto. }
    destruct (Hseq false r) as (b & r' & E). eexists _, _. constructor. exact E.
  - destruct (iterates_from_rank body rank (IH Hb) Hrank (rank r) r) as (k & r1 & Hk);
      [done |].
    eexists _, _. by apply exec_loop_intro.
Qed.

End PipelineLoops.
