(* ===== verification/PipelineFaults.v ===== *)
(** * Faults in pipelines

    The spec (section 7) asks that a failure during a pass is not caught
    or retried: it propagates unchanged to the caller of the whole
    pipeline, and a run is all-or-nothing.  Here a fault is a [Crash f]
    outcome of the interpreter [apply]: a member call through a null
    [Own<T>], or the failure of a leaf pass.  A fault of a child
    reached by a sequence, or of the body of a loop after any number of
    changing iterations, is the fault of the composite, for all fuel past
    a bound; the two theorems compose, so a fault anywhere in the tree
    that the run reaches is the fault of the root. *)

From S2P Require Import Prelude TranslationUnit Transformer Sequence Loop Pipeline.

Section PipelineFaults.
Context {Prog Analysis : Type}.

Abbreviation RunS := (Run Prog Analysis).
Abbreviation RamTransformer := (RamTransformer Prog Analysis).

(** The body of a loop reports [true] [k] times in a row. *)
Inductive advances (body : RamTransformer) : nat -> RunS -> RunS -> Prop :=
| advances_now r : advances body 0 r r
| advances_step k r r1 r2 :
    exec body r true r1 -> advances body k r1 r2 -> advances body (S k) r r2.

Lemma apply_mono_Crash f1 f2 (t : RamTransformer) r f :
  f1 <= f2 -> apply f1 t r = Crash f -> apply f2 t r = Crash f.
Proof. intros Hf. apply st_le_Crash. by apply apply_mono. Qed.

(** With enough fuel, [advances] is [changes] of the interpreter. *)
Lemma advances_changes (body : RamTransformer) k r r1 :
  advances body k r r1 -> exists n, forall fuel, n <= fuel ->
  RamLoopTransformer.changes (apply fuel body) k r r1.
Proof.
  induction 1 as [r|k r r1 r2 H _ (n & IH)].
  - exists 0. constructor.
  - destruct (exec_apply _ _ _ _ H) as (m & Hm). exists (max m n). intros fuel Hf.
    econstructor; [apply (apply_mono_Done m); [lia | done] | apply IH; lia].
Qed.

(** C24: a fault of an element of a sequence, reached after the elements
    before it ran, is the fault of the whole sequence: the elements after
    it never run, and no flag or state is returned. *)
Theorem sequence_crash_propagates (ts1 : list RamTransformer) t ts2 (r : RunS) b r1 n f :
  exec_seq (map Some ts1) r false b r1 -> apply n t r1 = Crash f ->
  exists m, forall fuel, m <= fuel ->
    apply fuel (TSequence (map Some ts1 ++ Some t :: ts2)) r = Crash f.
Proof.
  intros [n1 H1]%exec_seq_apply Ht. exists (max n1 n). intros fuel Hf. simpl.
  apply st_bind_Crash. unfold RamTransformerSequence.transform.
  rewrite map_app. simpl.
  eapply RamTransformerSequence.seq_loop_app_Crash.
  - eapply st_le_Done; [| exact H1].
    apply RamTransformerSequence.seq_loop_mono; [apply map_apply_mono; lia | done].
  - apply (apply_mono_Crash n); [lia | done].
Qed.

(** C26: a fault of the body of a loop, after any number [k] of changing
    iterations, is the fault of the loop: the iterations already done
    are not rolled back, but the loop returns no flag and no state. *)
Theorem loop_crash_propagates (body : RamTransformer) k r r1 n f :
  advances body k r r1 -> apply n body r1 = Crash f ->
  exists m, forall fuel, m <= fuel -> apply fuel (TLoop (Some body)) r = Crash f.
Proof.
  intros (n1 & Ha)%advances_changes Hb. exists (S (max (max n1 n) k)). intros fuel Hf.
  simpl. apply st_bind_Crash.
  apply (RamLoopTransformer.transform_crash_propagates _ k r r1); [apply Ha; lia | | lia].
  apply (apply_mono_Crash n); [lia | done].
Qed.
End PipelineFaults.
