(* ===== verification/PipelineCache.v ===== *)
(** * The analysis cache of a pipeline run

    Every leaf that keeps the cache coherent when it reports no change
    makes the whole pipeline keep it coherent: the base [apply] clears
    the cache on every reported change, at every level of the tree. *)

From S2P Require Import Prelude TranslationUnit Transformer Sequence Loop Pipeline PipelineLoops.

Section PipelineCache.
Context {Prog Analysis : Type}.

Abbreviation TU := (TranslationUnit Prog Analysis).
Abbreviation RunS := (Run Prog Analysis).
Abbreviation RamTransformer := (RamTransformer Prog Analysis).

(** [all_leaves P t]: every leaf function of [t] satisfies [P]. *)
Inductive all_leaves (P : (TU -> option (TU * bool)) -> Prop) : RamTransformer -> Prop :=
| all_leaves_leaf name f : P f -> all_leaves P (TLeaf name f)
| all_leaves_sequence ts :
    (forall t, Some t ∈ ts -> all_leaves P t) -> all_leaves P (TSequence ts)
| all_leaves_loop body :
    (forall t, body = Some t -> all_leaves P t) -> all_leaves P (TLoop body).

(** ** The analysis cache *)

Context (analyse : string -> Prog -> Analysis).

Lemma apply_preserves_coherent t fuel :
  all_leaves (leaf_ok analyse) t -> preserves (run_coherent analyse) (apply fuel t).
Proof.
  induction t as [name f|ts IH|body IH] using RamTransformer_ind';
    intros Ht; inversion Ht as [? ? Hf|? Hts|? Hb]; subst; simpl;
    apply base_apply_coherent.
  - by apply leaf_transform_reports.
  - apply preserves_reports_changes, RamTransformerSequence.seq_loop_preserves.
    clear Ht. induction IH as [|[t|] ts Ht1 _ IHts]; simpl; constructor;
      [apply Ht1, Hts; set_solver | apply IHts; set_solver |
       apply preserves_null_deref | apply IHts; set_solver].
  - apply preserves_reports_changes, RamLoopTransformer.transform_preserves.
    destruct body as [body|]; [by apply IH, Hb | apply preserves_null_deref].
Qed.

(** C4: cache coherence for whole pipelines: if every leaf keeps the
    cache coherent whenever it reports no change, then every pipeline,
    however it nests sequences and loops, leaves a coherent cache
    coherent, even where a sequence reports [false] after an earlier
    element changed the program. *)
Theorem exec_coherent t r b r' :
  all_leaves (leaf_ok analyse) t -> exec t r b r' ->
  run_coherent analyse r -> run_coherent analyse r'.
Proof.
  intros Ht [n H]%exec_apply Hr. eapply (apply_preserves_coherent t n Ht); eauto.
Qed.

(** C25: no stale analysis: after any terminating run of a pipeline
    whose leaves keep the cache coherent, started on a coherent unit,
    reading an analysis answers the analysis of the current program. *)
Theorem analysis_fresh t r b r' name :
  all_leaves (leaf_ok analyse) t -> exec t r b r' -> run_coherent analyse r ->
  exists tu', getAnalysis analyse name (run_tu r') =
              Done (analyse name (program (run_tu r')), tu').
Proof.
  intros Ht [n H]%exec_apply Hr.
  destruct (getAnalysis_correct analyse name (run_tu r')) as (tu' & E & _); [| by exists tu'].
  exact (apply_preserves_coherent t n Ht _ _ _ Hr H).
Qed.
(** ** Transparency of the cache *)

(** Runs from two units with the same program, both satisfying an
    invariant [I] of the units (for the analysis cache: coherence), give
    the same flag and the same program, whatever else the units hold:
    what is cached cannot change the outcome of a pipeline whose leaves
    read the unit only through the program and [I]. *)
Section Transparency.
Variable I : TU -> Prop.
(** A unit whose cache was just cleared satisfies [I]. *)
Hypothesis I_invalidated : forall tu, I (invalidateAnalyses tu).

(** A leaf keeps [I] when it reports no change, and on units satisfying
    [I] its flag and new program are functions of the program. *)
Definition leaf_transparent (f : TU -> option (TU * bool)) : Prop :=
  (forall tu tu', I tu -> f tu = Some (tu', false) -> I tu') /\
  (forall tu1 tu2 tu1' b, I tu1 -> I tu2 -> program tu1 = program tu2 ->
     f tu1 = Some (tu1', b) -> exists tu2', f tu2 = Some (tu2', b) /\ program tu1' = program tu2').

Definition related (r1 r2 : RunS) : Prop :=
  I (run_tu r1) /\ I (run_tu r2) /\ program (run_tu r1) = program (run_tu r2).

Lemma after_apply_related name name' b (r1 r2 : RunS) :
  program (run_tu r1) = program (run_tu r2) ->
  (b = false -> I (run_tu r1) /\ I (run_tu r2)) ->
  related (after_apply name b r1) (after_apply name' b r2).
Proof.
  unfold related. rewrite !run_tu_after_apply. intros Hp HI.
  destruct b; [| destruct (HI eq_refl) as [H1 H2]]; split_and!; auto.
Qed.

Lemma related_after_apply name name' b (r1 r2 : RunS) :
  related r1 r2 -> related (after_apply name b r1) (after_apply name' b r2).
Proof. intros (H1 & H2 & Hp). by apply after_apply_related. Qed.

Lemma exec_transparent_all :
  (forall t r1 b r1', exec t r1 b r1' -> all_leaves leaf_transparent t ->
     forall r2, related r1 r2 -> exists r2', exec t r2 b r2' /\ related r1' r2') /\
  (forall ts r1 c b r1', exec_seq ts r1 c b r1' ->
     (forall t, Some t ∈ ts -> all_leaves leaf_transparent t) ->
     forall r2, related r1 r2 -> exists r2', exec_seq ts r2 c b r2' /\ related r1' r2') /\
  (forall body r1 ctr ctr' r1', exec_iter body r1 ctr ctr' r1' -> all_leaves leaf_transparent body ->
     forall r2, related r1 r2 -> exists r2', exec_iter body r2 ctr ctr' r2' /\ related r1' r2').
Proof.
  apply exec_mutind.
  - intros name f r1 b q1 E Hl r2 (H1 & H2 & Hp).
    inversion Hl as [? ? [Hk Hf]| |]; subst.
    apply leaf_transform_Done in E as [E El].
    destruct (Hf _ _ _ _ H1 H2 Hp E) as (tu2 & E2 & Hp2).
    exists (after_apply name b (mkRun tu2 (run_log r2))). split.
    + constructor. by apply leaf_transform_Done.
    + apply after_apply_related; [done |]. intros ->. split; [by apply (Hk _ _ H1 E) | by apply (Hk _ _ H2 E2)].
  - intros ts r1 b q1 _ IH Hl r2 Hr. inversion Hl as [|? Hts|]; subst.
    destruct (IH Hts r2 Hr) as (q2 & Hq & Eq).
    eexists. split; [by constructor | by apply related_after_apply].
  - intros body r1 ctr q1 _ IH Hl r2 Hr. inversion Hl as [| |? Hb]; subst.
    destruct (IH (Hb _ eq_refl) r2 Hr) as (q2 & Hq & Eq).
    eexists. split; [by constructor | by apply related_after_apply].
  - intros r1 c Hl r2 Hr. exists r2. split; [constructor | done].
  - intros t ts r1 c b q1 b' q2 _ IH1 _ IH2 Hl r2 Hr.
    destruct (IH1 (Hl t ltac:(set_solver)) r2 Hr) as (p1 & Hp1 & E1).
    destruct (IH2 (fun t' Ht' => Hl t' ltac:(set_solver)) p1 E1) as (p2 & Hp2 & E2).
    exists p2. split; [econstructor; eauto | done].
  - intros body r1 q1 ctr _ IH Hl r2 Hr. destruct (IH Hl r2 Hr) as (q2 & Hq & E).
    exists q2. split; [by constructor | done].
  - intros body r1 q1 ctr ctr' q2 _ IH1 _ IH2 Hl r2 Hr.
    destruct (IH1 Hl r2 Hr) as (p1 & Hp1 & E1). destruct (IH2 Hl p1 E1) as (p2 & Hp2 & E2).
    exists p2. split; [econstructor; eauto | done].
Qed.

(** C22: transparency of the cache: for a pipeline whose leaves are
    transparent for [I], a run from a unit satisfying [I] is matched,
    from any other unit with the same program satisfying [I], by a run
    with the same flag that ends with the same program.  With [I] the
    coherence of the analysis cache, the analyses that happen to be
    cached never change what a pipeline does to the program. *)
Theorem cache_transparent t r1 b r1' r2 :
  all_leaves leaf_transparent t -> exec t r1 b r1' -> related r1 r2 ->
  exists r2', exec t r2 b r2' /\ program (run_tu r1') = program (run_tu r2').
Proof.
  intros Hl H Hr. destruct (proj1 exec_transparent_all _ _ _ _ H Hl r2 Hr) as (r2' & H2 & _ & _ & Hp).
  by exists r2'.
Qed.
End Transparency.

(** With leaves that read only the program ([I] trivial), every pipeline
    has a flag that depends only on the program, so the convergence law
    [loop_converged_stays] applies to a loop around any honest such
    pipeline, loops nested in it included. *)
Lemma pure_flag_determined t :
  all_leaves (leaf_transparent (fun _ => True)) t -> flag_determined t.
Proof.
  intros Hl r1 r2 b r1' Hp H.
  destruct (proj1 (exec_transparent_all (fun _ => True) (fun _ => I)) _ _ _ _ H Hl r2)
    as (r2' & H2 & _); [done | by exists r2'].
Qed.
End PipelineCache.
