(* ===== verification/PipelineEquiv.v ===== *)
(** * Equivalence of pipelines up to the trace

    Two runs are [same_unit] when they leave the same translation unit
    (program and analysis cache); their traces may differ.  Two pipelines
    are equivalent ([pass_equiv]) when from every state each terminating
    run of one is matched by a run of the other with the same flag and
    the same unit.  The big-step semantics does not look at the trace
    ([exec_same_unit_all]); with it, nested sequences flatten, and a
    sequence of one element is that element. *)

From S2P Require Import Prelude TranslationUnit Transformer Sequence Loop Pipeline.

Section PipelineEquiv.
Context {Prog Analysis : Type}.

Abbreviation TU := (TranslationUnit Prog Analysis).
Abbreviation RunS := (Run Prog Analysis).
Abbreviation RamTransformer := (RamTransformer Prog Analysis).

Definition same_unit (r1 r2 : RunS) : Prop := run_tu r1 = run_tu r2.

#[global] Instance same_unit_equivalence : Equivalence same_unit.
Proof. unfold same_unit. split; repeat intro; congruence. Qed.

(** [simulates t1 t2]: every terminating run of the interpreter on [t1]
    is matched by one on [t2] from the same state, with the same flag and
    the same unit, for some fuel. *)
Definition simulates (t1 t2 : RamTransformer) : Prop :=
  forall n r b r1, apply n t1 r = Done (b, r1) ->
  exists m r2, apply m t2 r = Done (b, r2) /\ same_unit r1 r2.

Definition pass_equiv (t1 t2 : RamTransformer) : Prop :=
  simulates t1 t2 /\ simulates t2 t1.

(** The same, on the big-step semantics. *)
Definition exec_simulates (t1 t2 : RamTransformer) : Prop :=
  forall r b r1, exec t1 r b r1 -> exists r2, exec t2 r b r2 /\ same_unit r1 r2.

Lemma simulates_exec (t1 t2 : RamTransformer) : simulates t1 t2 <-> exec_simulates t1 t2.
Proof.
  split.
  - intros Hs r b r1 (n & Hn)%exec_apply. destruct (Hs _ _ _ _ Hn) as (m & r2 & Hm & E).
    exists r2. split; [by apply (apply_exec m) | done].
  - intros Hs n r b r1 Hn. destruct (Hs _ _ _ (apply_exec n _ _ _ _ Hn)) as (r2 & H2 & E).
    destruct (exec_apply _ _ _ _ H2) as (m & Hm). by exists m, r2.
Qed.

Lemma pass_equiv_exec (t1 t2 : RamTransformer) :
  pass_equiv t1 t2 <-> exec_simulates t1 t2 /\ exec_simulates t2 t1.
Proof. unfold pass_equiv. by rewrite !simulates_exec. Qed.

#[global] Instance exec_simulates_preorder : PreOrder exec_simulates.
Proof.
  split.
  - intros t r b r1 H. by exists r1.
  - intros t1 t2 t3 H12 H23 r b r1 (r2 & H2 & E12)%H12.
    destruct (H23 _ _ _ H2) as (r3 & H3 & E23). exists r3. split; [done | by rewrite E12].
Qed.

#[global] Instance pass_equiv_equivalence : Equivalence pass_equiv.
Proof.
  split.
  - intros t. apply pass_equiv_exec. split; reflexivity.
  - intros t1 t2 [H1 H2]. by split.
  - intros t1 t2 t3 [H12 H21]%pass_equiv_exec [H23 H32]%pass_equiv_exec.
    apply pass_equiv_exec. split; etransitivity; eauto.
Qed.

Lemma after_apply_same_unit name name' b r q :
  same_unit r q -> same_unit (after_apply name b r) (after_apply name' b q).
Proof. unfold same_unit. rewrite !run_tu_after_apply. by intros ->. Qed.

(** The semantics reads only the translation unit, never the trace. *)
Lemma exec_same_unit_all :
  (forall t r b r1, exec t r b r1 -> forall q, same_unit r q ->
     exists q1, exec t q b q1 /\ same_unit r1 q1) /\
  (forall ts r c b r1, exec_seq ts r c b r1 -> forall q, same_unit r q ->
     exists q1, exec_seq ts q c b q1 /\ same_unit r1 q1) /\
  (forall body r ctr ctr' r1, exec_iter body r ctr ctr' r1 -> forall q, same_unit r q ->
     exists q1, exec_iter body q ctr ctr' q1 /\ same_unit r1 q1).
Proof.
  apply exec_mutind.
  - intros name f r b r1 E q Hq. apply leaf_transform_Done in E as [E _].
    exists (after_apply name b (mkRun (run_tu r1) (run_log q))). split.
    + constructor. apply leaf_transform_Done. rewrite <- Hq. by split.
    + by apply after_apply_same_unit.
  - intros ts r b r1 _ IH q Hq. destruct (IH q Hq) as (q1 & H & E).
    eexists. split; [by constructor | by apply after_apply_same_unit].
  - intros body r ctr r1 _ IH q Hq. destruct (IH q Hq) as (q1 & H & E).
    eexists. split; [by constructor | by apply after_apply_same_unit].
  - intros r c q Hq. exists q. split; [constructor | done].
  - intros t ts r c b r1 b' r2 _ IH1 _ IH2 q Hq.
    destruct (IH1 q Hq) as (q1 & H1 & E1). destruct (IH2 q1 E1) as (q2 & H2 & E2).
    exists q2. split; [econstructor; eauto | done].
  - intros body r r1 ctr _ IH q Hq. destruct (IH q Hq) as (q1 & H & E).
    exists q1. split; [by constructor | done].
  - intros body r r1 ctr ctr' r2 _ IH1 _ IH2 q Hq.
    destruct (IH1 q Hq) as (q1 & H1 & E1). destruct (IH2 q1 E1) as (q2 & H2 & E2).
    exists q2. split; [econstructor; eauto | done].
Qed.

Lemma exec_seq_same_unit ts r c b r1 q :
  exec_seq ts r c b r1 -> same_unit r q -> exists q1, exec_seq ts q c b q1 /\ same_unit r1 q1.
Proof. intros H. by apply exec_same_unit_all. Qed.

(** The flag a non-empty sequence starts from is overwritten. *)
Lemma exec_seq_flag (ts : list (option RamTransformer)) (r : RunS) c c' b r' :
  ts <> [] -> exec_seq ts r c b r' -> exec_seq ts r c' b r'.
Proof. intros Hne H. inversion H; subst; [done | econstructor; eauto]. Qed.

(** A run that reports a change has already cleared the cache. *)
Lemma exec_after_unit t r b r' name :
  exec t r b r' -> same_unit (after_apply name b r') r'.
Proof.
  unfold same_unit. intros H. rewrite run_tu_after_apply.
  inversion H; subst; rewrite run_tu_after_apply;
    [destruct b | destruct b | destruct (ctr >? 0)%Z]; reflexivity.
Qed.

Lemma exec_seq_after_unit ts r c b r' name :
  exec_seq ts r c b r' -> (ts = [] -> c = false) -> same_unit (after_apply name b r') r'.
Proof.
  induction 1 as [r c|t ts r c b r1 b' r2 Ht Hs IH]; intros Hc.
  - by rewrite (Hc eq_refl).
  - destruct ts as [|p ts].
    + inversion Hs; subst. by apply (exec_after_unit t r).
    + by apply IH.
Qed.

Lemma exec_sequence_intro (ts : list (option RamTransformer)) r b r1 r2 :
  exec_seq ts r false b r1 -> same_unit r1 r2 ->
  exists q, exec (TSequence ts) r b q /\ same_unit (after_apply RamTransformerSequence.getName b r2) q.
Proof. intros H E. eexists. split; [by constructor |]. by apply after_apply_same_unit. Qed.

(** Nested sequence to flat sequence. *)
Lemma flatten_simulates (ts1 ts2 ts3 : list (option RamTransformer)) :
  ts2 <> [] \/ ts3 <> [] ->
  exec_simulates (TSequence (ts1 ++ Some (TSequence ts2) :: ts3)) (TSequence (ts1 ++ ts2 ++ ts3)).
Proof.
  intros Hne r b R (R1 & H & ->)%exec_sequence_inv.
  apply exec_seq_app in H as (c & rm & H1 & H).
  apply exec_seq_cons_inv in H as (bN & rn & HN & H3).
  apply exec_sequence_inv in HN as (rq & H2 & ->).
  destruct (exec_seq_same_unit _ _ _ _ _ rq H3) as (Q1 & H3' & E).
  { by apply (exec_seq_after_unit ts2 rm false). }
  destruct (exec_sequence_intro (ts1 ++ ts2 ++ ts3) r b Q1 R1) as (q & Hq & Eq);
    [| by symmetry | exists q; split; [done | by rewrite <- Eq; apply after_apply_same_unit]].
  apply exec_seq_app. exists c, rm. split; [done |]. apply exec_seq_app.
  destruct ts2 as [|p ts2].
  - apply exec_seq_nil_inv in H2 as [-> ->]. exists c, rm. split; [constructor |].
    apply (exec_seq_flag _ _ false); [by destruct Hne | done].
  - exists bN, rq. split; [by apply (exec_seq_flag _ _ false) | done].
Qed.

(** Flat sequence to nested sequence. *)
Lemma unflatten_simulates (ts1 ts2 ts3 : list (option RamTransformer)) :
  ts2 <> [] \/ ts3 <> [] ->
  exec_simulates (TSequence (ts1 ++ ts2 ++ ts3)) (TSequence (ts1 ++ Some (TSequence ts2) :: ts3)).
Proof.
  intros Hne r b R (R1 & H & ->)%exec_sequence_inv.
  apply exec_seq_app in H as (c & rm & H1 & H).
  apply exec_seq_app in H as (bN & rq & H2 & H3).
  assert (exists bN' rq', exec_seq ts2 rm false bN' rq' /\ exec_seq ts3 rq' bN' b R1)
    as (bN' & rq' & H2' & H3').
  { destruct ts2 as [|p ts2].
    - apply exec_seq_nil_inv in H2 as [-> ->]. exists false, rm. split; [constructor |].
      apply (exec_seq_flag _ _ c); [by destruct Hne | done].
    - exists bN, rq. split; [by apply (exec_seq_flag _ _ c) | done]. }
  destruct (exec_seq_same_unit _ _ _ _ _ (after_apply RamTransformerSequence.getName bN' rq') H3') as (Q1 & H4 & E).
  { symmetry. by apply (exec_seq_after_unit ts2 rm false). }
  destruct (exec_sequence_intro (ts1 ++ Some (TSequence ts2) :: ts3) r b Q1 R1) as (q & Hq & Eq);
    [| by symmetry | exists q; split; [done | by rewrite <- Eq; apply after_apply_same_unit]].
  apply exec_seq_app. exists c, rm. split; [done |].
  econstructor; [by constructor | done].
Qed.


(** A simulation may start from any state with the same unit. *)
Lemma simulates_from (t1 t2 : RamTransformer) r b r1 q :
  exec_simulates t1 t2 -> exec t1 r b r1 -> same_unit r q ->
  exists q1, exec t2 q b q1 /\ same_unit r1 q1.
Proof.
  intros Hs H E. destruct (proj1 exec_same_unit_all _ _ _ _ H q E) as (q' & H' & E').
  destruct (Hs _ _ _ H') as (q1 & H1 & E1). exists q1. split; [done | by rewrite E'].
Qed.

Lemma iter_simulates (t1 t2 : RamTransformer) r ctr ctr' r1 q :
  exec_simulates t1 t2 -> exec_iter t1 r ctr ctr' r1 -> same_unit r q ->
  exists q1, exec_iter t2 q ctr ctr' q1 /\ same_unit r1 q1.
Proof.
  intros Hs H. revert q. induction H as [body r r1 ctr H|body r r1 ctr ctr' r2 H _ IH]; intros q E.
  - destruct (simulates_from _ _ _ _ _ _ Hs H E) as (q1 & H1 & E1).
    exists q1. split; [by constructor | done].
  - destruct (simulates_from _ _ _ _ _ _ Hs H E) as (q1 & H1 & E1).
    destruct (IH Hs _ E1) as (q2 & H2 & E2). exists q2. split; [econstructor; eauto | done].
Qed.

Lemma seq_simulates (ts1 ts2 : list RamTransformer) r c b r1 q :
  Forall2 exec_simulates ts1 ts2 -> exec_seq (map Some ts1) r c b r1 -> same_unit r q ->
  exists q1, exec_seq (map Some ts2) q c b q1 /\ same_unit r1 q1.
Proof.
  intros Hs. revert r c q. induction Hs as [|t1 t2 ts1 ts2 H12 _ IH]; intros r c q H E; simpl in *.
  - apply exec_seq_nil_inv in H as [-> ->]. exists q. split; [constructor | done].
  - apply exec_seq_cons_inv in H as (b1 & rm & H1 & H).
    destruct (simulates_from _ _ _ _ _ _ H12 H1 E) as (qm & Hm & Em).
    destruct (IH _ _ _ H Em) as (q1 & Hq & E1). exists q1. split; [econstructor; eauto | done].
Qed.

(** C21: a sequence nested inside another is equivalent to splicing its
    elements in place, provided the nested sequence is non-empty or is
    followed by something: an empty nested sequence at the end resets the
    flag to [false] (see [Scenarios.Flatten]). *)
Theorem sequence_flatten (ts1 ts2 ts3 : list (option RamTransformer)) :
  ts2 <> [] \/ ts3 <> [] ->
  pass_equiv (TSequence (ts1 ++ Some (TSequence ts2) :: ts3)) (TSequence (ts1 ++ ts2 ++ ts3)).
Proof.
  intros Hne. apply pass_equiv_exec.
  split; [by apply flatten_simulates | by apply unflatten_simulates].
Qed.

(** A sequence of one transformer is equivalent to that transformer;
    the wrapper only adds its own trace entry. *)
Theorem sequence_singleton (t : RamTransformer) :
  pass_equiv (TSequence [Some t]) t.
Proof.
  apply pass_equiv_exec. split.
  - intros r b R (R1 & H & ->)%exec_sequence_inv.
    apply exec_seq_cons_inv in H as (b1 & r1 & Ht & [-> ->]%exec_seq_nil_inv).
    exists r1. split; [done | by apply (exec_after_unit t r)].
  - intros r b r1 Ht. exists (after_apply RamTransformerSequence.getName b r1). split.
    + constructor. econstructor; [exact Ht | constructor].
    + symmetry. by apply (exec_after_unit t r).
Qed.

(** The loop is a congruence for pass equivalence: looping
    equivalent bodies gives equivalent loops. *)
Theorem loop_congruence (t1 t2 : RamTransformer) :
  pass_equiv t1 t2 -> pass_equiv (TLoop (Some t1)) (TLoop (Some t2)).
Proof.
  assert (forall u1 u2 : RamTransformer, exec_simulates u1 u2 ->
            exec_simulates (TLoop (Some u1)) (TLoop (Some u2))) as Hloop.
  { intros u1 u2 Hs r b R H. inversion H as [| |? ? ctr r1 H3]; subst.
    destruct (iter_simulates _ _ _ _ _ _ r Hs H3) as (q1 & Hq & E); [done |].
    eexists. split; [by constructor | by apply after_apply_same_unit]. }
  rewrite !pass_equiv_exec. intros [H12 H21]. split; by apply Hloop.
Qed.

(** The sequence is a congruence for pass equivalence: replacing
    each element by an equivalent one gives an equivalent sequence. *)
Theorem sequence_congruence (ts1 ts2 : list RamTransformer) :
  Forall2 pass_equiv ts1 ts2 ->
  pass_equiv (TSequence (map Some ts1)) (TSequence (map Some ts2)).
Proof.
  intros H. apply pass_equiv_exec.
  apply (Forall2_impl pass_equiv (fun t1 t2 => exec_simulates t1 t2 /\ exec_simulates t2 t1)) in H;
    [| intros ? ? ?; by apply pass_equiv_exec].
  split; intros r b R (R1 & Hs & ->)%exec_sequence_inv.
  - destruct (seq_simulates ts1 ts2 r false b R1 r) as (q1 & Hq & E); [| done | done |].
    { eapply Forall2_impl; [exact H | by intros ? ? []]. }
    eexists. split; [by constructor | by apply after_apply_same_unit].
  - destruct (seq_simulates ts2 ts1 r false b R1 r) as (q1 & Hq & E); [| done | done |].
    { apply Forall2_flip. eapply Forall2_impl; [exact H | by intros ? ? []]. }
    eexists. split; [by constructor | by apply after_apply_same_unit].
Qed.
End PipelineEquiv.
