(* ===== verification/Scenarios.v ===== *)
(** * Scenarios

    The scenarios of the spec (section 8) run on concrete pipelines, and
    the counterexamples they lead to.  Programs are small ([list string]
    recording which pass ran, or a [Z] counter); leaves are ordinary
    rewrite functions.  The runs are computed by the interpreter [apply]
    and turned into big-step runs with its soundness lemma.  The
    [Example]s on fixed inputs back the findings; the [Instances] apply
    the general theorems where their hypotheses hold. *)

From S2P Require Import Prelude TranslationUnit Transformer Sequence Loop Pipeline PipelineLoops PipelineFaults PipelineCache PipelineEquiv.

(** A fresh run: the given program, an empty cache and an empty trace. *)
Definition start {Prog Analysis} (p : Prog) : Run Prog Analysis :=
  mkRun (mkTranslationUnit p ∅) [].

(** ** Order and the flag of a sequence *)

Module Order.
Abbreviation TU := (TranslationUnit (list string) nat).

(** A pass that appends its name to the program and reports [b]. *)
Definition mark (name : string) (b : bool) : RamTransformer (list string) nat :=
  TLeaf name (fun tu => Some (setProgram tu (program tu ++ [name]), b)).

(** [Sequence([A,B,C])] runs A, B and C once each, in this order,
    whatever they report, and reports C's flag: [true] for
    (true, false, true) and [false] for (true, true, false). *)
Example sequence_order :
  (exists r', exec (TSequence [Some (mark "A" true); Some (mark "B" false); Some (mark "C" true)])
                (start []) true r' /\
              program (run_tu r') = ["A"; "B"; "C"] /\
              map fst (run_log r') = ["A"; "B"; "C"; "RamTransformerSequence"]) /\
  (exists r', exec (TSequence [Some (mark "A" true); Some (mark "B" true); Some (mark "C" false)])
                (start []) false r' /\
              program (run_tu r') = ["A"; "B"; "C"]).
Proof.
  split; eexists; split_and!;
    try (apply (apply_exec 1); vm_compute; reflexivity); reflexivity.
Qed.
End Order.

(** ** A nested fixed point *)

Module NestedFixpoint.
(** The program is a pair of counters, one per pass. *)
Abbreviation TU := (TranslationUnit (Z * Z) nat).

(** A always changes the unit. *)
Definition A : RamTransformer (Z * Z) nat :=
  TLeaf "A" (fun tu => let '(a, b) := program tu in Some (setProgram tu (a + 1, b)%Z, true)).

(** B changes the unit twice, then reports no change. *)
Definition B : RamTransformer (Z * Z) nat :=
  TLeaf "B" (fun tu => let '(a, b) := program tu in
                       if (b <? 2)%Z then Some (setProgram tu (a, b + 1)%Z, true)
                       else Some (tu, false)).

(** [Loop(Sequence([A,B]))] with A always reporting a change and B
    reporting one exactly twice: the sequence is applied three times
    (B's transition decides), A three times, and the loop reports
    [true]. *)
Example nested_fixed_point :
  exists r', exec (TLoop (Some (TSequence [Some A; Some B]))) (start (0, 0)%Z) true r' /\
             count_applies "RamTransformerSequence" (run_log r') = 3 /\
             count_applies "A" (run_log r') = 3 /\
             program (run_tu r') = (3, 2)%Z.
Proof.
  eexists; split_and!; [apply (apply_exec 5); vm_compute; reflexivity | ..];
    reflexivity.
Qed.
End NestedFixpoint.

(** ** The "idempotent convergence law" and sequences *)

Module Convergence.
(** A counts up to 2; B jumps from 2 to 10.  Both are honest: they
    report [false] only when they leave the program alone. *)
Definition fA (tu : TranslationUnit Z nat) : option (TranslationUnit Z nat * bool) :=
  if (program tu <? 2)%Z then Some (setProgram tu (program tu + 1)%Z, true) else Some (tu, false).

Definition fB (tu : TranslationUnit Z nat) : option (TranslationUnit Z nat * bool) :=
  if (program tu =? 2)%Z then Some (setProgram tu 10%Z, true) else Some (tu, false).

Definition A : RamTransformer Z nat := TLeaf "A" fA.
Definition B : RamTransformer Z nat := TLeaf "B" fB.
Definition P : RamTransformer Z nat := TSequence [Some A; Some B].

Lemma fA_honest : leaf_honest fA.
Proof. intros tu tu'. unfold fA. by destruct (program tu <? 2)%Z; intros [= <-]. Qed.

Lemma fB_honest : leaf_honest fB.
Proof. intros tu tu'. unfold fB. by destruct (program tu =? 2)%Z; intros [= <-]. Qed.

(** The first run of [P] from 0 reports [false] and leaves 1. *)
Lemma P_first_run :
  exec P (start 0%Z) false
    (after_apply RamTransformerSequence.getName false
       (after_apply "B" false (after_apply "A" true (mkRun (setProgram (mkTranslationUnit 0%Z ∅) 1%Z) [])))).
Proof. apply (apply_exec 1). vm_compute. reflexivity. Qed.

(** The spec's "idempotent convergence law" (a pipeline that
    reports [false] reports [false] again when applied at once to the
    result) fails for a sequence of honest passes: the sequence reports
    [false] because its last element did, although its first element
    changed the program, and the second application reports [true]. *)
Example idempotent_law_fails :
  exists r1 r2, exec P (start 0%Z) false r1 /\ exec P r1 true r2 /\
                program (run_tu r1) = 1%Z /\ program (run_tu r2) = 10%Z.
Proof.
  eexists _, _. split_and!; [apply P_first_run | apply (apply_exec 1); vm_compute; reflexivity
                            | reflexivity | reflexivity].
Qed.

(** Honesty is not preserved by sequences: A and B are honest, the
    sequence of the two is not. *)
Example sequence_not_honest :
  leaf_honest fA /\ leaf_honest fB /\ ~ honest P.
Proof.
  split_and!; [exact fA_honest | exact fB_honest |].
  intros H. specialize (H _ _ P_first_run). discriminate H.
Qed.

(** A loop around the sequence converges prematurely: it stops
    after one iteration, in a state where A would still change the
    program, because only B's flag reaches the loop. *)
Example loop_premature_convergence :
  exists r' r'', exec (TLoop (Some P)) (start 0%Z) false r' /\
                 program (run_tu r') = 1%Z /\
                 exec A r' true r'' /\ program (run_tu r'') = 2%Z.
Proof.
  eexists _, _. split_and!;
    [apply (apply_exec 1); vm_compute; reflexivity | reflexivity
    | apply (apply_exec 0); vm_compute; reflexivity | reflexivity].
Qed.
(** A null element passed to the sequence constructor: a debug
    build aborts on [assert(cur)]; a release build ([NDEBUG]) accepts it,
    and applying the sequence crashes when it reaches the null element,
    after A has run. *)
Example ndebug_null_child :
  mkSeq false [Some A; None] = inl (RamTransformerSequence.AssertionFailed "cur") /\
  exists t, mkSeq true [Some A; None] = inr t /\
            apply 5 t (start 0%Z) = Crash NullDereference.
Proof. split; [reflexivity | eexists; split; [reflexivity | vm_compute; reflexivity]]. Qed.
End Convergence.

(** ** A loop whose body reports no change at once *)

Module SingleNoop.
(** D rewrites the program but reports no change. *)
Definition D : RamTransformer Z nat :=
  TLeaf "D" (fun tu => Some (setProgram tu 7%Z, false)).

(** The body of a loop is evaluated before the test: a body that
    reports [false] on its first call is applied exactly once, its
    effect on the program stays, and the loop reports [false]. *)
Example loop_single_noop :
  exists r', exec (TLoop (Some D)) (start 0%Z) false r' /\
             count_applies "D" (run_log r') = 1 /\
             program (run_tu r') = 7%Z.
Proof.
  eexists; split_and!; [apply (apply_exec 1); vm_compute; reflexivity | ..]; reflexivity.
Qed.
End SingleNoop.

(** ** Flattening a nested sequence: the boundary case *)

Module Flatten.
Import Convergence.

(** [A] followed by an empty nested sequence, and its flattening
    [[A] ++ [] ++ []]. *)
Definition nested : RamTransformer Z nat := TSequence [Some A; Some (TSequence [])].
Definition flat : RamTransformer Z nat := TSequence ([Some A] ++ [] ++ []).

Definition nested_result : Run Z nat :=
  match apply 1 nested (start 0%Z) with Done (_, r) => r | _ => start 0%Z end.
Definition flat_result : Run Z nat :=
  match apply 1 flat (start 0%Z) with Done (_, r) => r | _ => start 0%Z end.

(** The side condition of [sequence_flatten] is needed.  An empty
    nested sequence at the end reports [false] (its [changed] starts
    [false] and no element overwrites it), and the outer sequence returns
    that flag; once flattened, the flag is [A]'s [true].  So the two are
    not equivalent. *)
Example flatten_empty_last :
  apply 1 nested (start 0%Z) = Done (false, nested_result) /\
  apply 1 flat (start 0%Z) = Done (true, flat_result) /\
  ~ pass_equiv nested flat.
Proof.
  split_and!; [vm_compute; reflexivity | vm_compute; reflexivity |].
  intros [_ Hs%simulates_exec].
  assert (Hf : exec flat (start 0%Z) true flat_result)
    by (apply (apply_exec 1); vm_compute; reflexivity).
  destruct (Hs _ _ _ Hf) as (q & Hq & _).
  apply exec_sequence_inv in Hq as (q1 & Hq & _).
  apply exec_seq_cons_inv in Hq as (b1 & rA & _ & Hq).
  apply exec_seq_cons_inv in Hq as (b2 & rS & HS & Hq).
  apply exec_sequence_inv in HS as (rS' & [-> _]%exec_seq_nil_inv & _).
  by apply exec_seq_nil_inv in Hq as [? _].
Qed.
End Flatten.

(** ** A pass that fails *)

Module Failure.
Import Convergence.

(** F reports a change while the program is below 2, and fails (its
    rewrite logic hits a fatal error) from 2 on. *)
Definition fF (tu : TranslationUnit Z nat) : option (TranslationUnit Z nat * bool) :=
  if (program tu <? 2)%Z then Some (tu, true) else None.

Definition F : RamTransformer Z nat := TLeaf "F" fF.

(** The body [Sequence([A, F])] and the loop around it: the first
    iteration takes the program to 1 and reports a change, the second
    takes it to 2 and F fails. *)
Definition LB : RamTransformer Z nat := TSequence [Some A; Some F].
Definition LF : RamTransformer Z nat := TLoop (Some LB).

Definition LB_result : Run Z nat :=
  match apply 1 LB (start 0%Z) with Done (_, r) => r | _ => start 0%Z end.

Lemma LB_first_run : exec LB (start 0%Z) true LB_result.
Proof. apply (apply_exec 1). vm_compute. reflexivity. Qed.
End Failure.

(** ** Instances of the pipeline theorems *)

Module Instances.
Import Convergence.

(** The one analysis: the program's value as a [nat]. *)
Definition sizeof (name : string) (p : Z) : nat := Z.to_nat p.

(** C reads the analysis through the cache and reports no change. *)
Definition fC (tu : TranslationUnit Z nat) : option (TranslationUnit Z nat * bool) :=
  match getAnalysis sizeof "size" tu with
  | Done (_, tu') => Some (tu', false)
  | _ => None
  end.

Definition W : RamTransformer Z nat := TLoop (Some (TSequence [Some (TLeaf "C" fC); Some A])).

Lemma fC_ok : leaf_ok sizeof fC.
Proof.
  intros tu tu1 Hc. unfold fC.
  destruct (getAnalysis_correct sizeof "size" tu Hc) as (tu' & -> & _ & Hc' & _).
  by intros [= <-].
Qed.

Lemma fA_ok : leaf_ok sizeof fA.
Proof.
  intros tu tu' Hc. unfold fA. by destruct (program tu <? 2)%Z; intros [= <-].
Qed.

Definition W_result : Run Z nat :=
  match apply 5 W (start 0%Z) with Done (_, r) => r | _ => start 0%Z end.

Lemma W_run : exec W (start 0%Z) true W_result.
Proof. apply (apply_exec 5). vm_compute. reflexivity. Qed.

(** The leaves of [W] are [fC] and [fA]. *)
Lemma W_leaves (P : (TranslationUnit Z nat -> option (TranslationUnit Z nat * bool)) -> Prop) :
  P fC -> P fA -> all_leaves P W.
Proof.
  intros HC HA. constructor. intros t [= <-]. constructor. intros t Ht.
  apply elem_of_cons in Ht as [[= ->]|[[= ->]|Ht]%elem_of_cons];
    [by constructor | by constructor | set_solver].
Qed.

Lemma W_leaves_ok : all_leaves (leaf_ok sizeof) W.
Proof. apply W_leaves; [exact fC_ok | exact fA_ok]. Qed.

Lemma fC_transparent : leaf_transparent (coherent sizeof) fC.
Proof.
  split.
  - intros tu tu' Hc. unfold fC.
    destruct (getAnalysis_correct sizeof "size" tu Hc) as (tu1 & -> & _ & Hc1 & _).
    by intros [= <-].
  - intros tu1 tu2 tu1' b H1 H2 Hp. unfold fC.
    destruct (getAnalysis_correct sizeof "size" tu1 H1) as (u1 & -> & Hp1 & _).
    destruct (getAnalysis_correct sizeof "size" tu2 H2) as (u2 & -> & Hp2 & _).
    intros [= <- <-]. exists u2. split; [done | congruence].
Qed.

Lemma fA_transparent : leaf_transparent (coherent sizeof) fA.
Proof.
  split.
  - intros tu tu' Hc. unfold fA. by destruct (program tu <? 2)%Z; intros [= <-].
  - intros tu1 tu2 tu1' b _ _ Hp. unfold fA. rewrite Hp.
    destruct (program tu2 <? 2)%Z; intros [= <- <-]; eexists; (split; [reflexivity | simpl; done]).
Qed.

Lemma exec_coherent_witness :
  all_leaves (leaf_ok sizeof) W /\ run_coherent sizeof (start 0%Z) /\
  run_coherent sizeof W_result.
Proof.
  pose proof W_leaves_ok as Hl.
  assert (H0 : run_coherent sizeof (start 0%Z)) by apply map_Forall_empty.
  split_and!; [exact Hl | exact H0 | exact (exec_coherent sizeof W _ _ _ Hl W_run H0)].
Defined.

Definition P_result : Run Z nat :=
  match apply 1 P (start 0%Z) with Done (_, r) => r | _ => start 0%Z end.

Lemma P_run : exec P (start 0%Z) false P_result.
Proof. apply (apply_exec 1). vm_compute. reflexivity. Qed.

Lemma exec_trace_witness :
  exists l, run_log P_result = run_log (start (Analysis := nat) 0%Z) ++ l ++ [(getName P, false)].
Proof. exact (exec_trace P _ _ _ P_run). Defined.

Definition L_result : Run Z nat :=
  match apply 1 (TLoop (Some A)) (start 2%Z) with Done (_, r) => r | _ => start 0%Z end.

Lemma loop_honest_witness :
  honest A /\ exec (TLoop (Some A)) (start 2%Z) false L_result /\
  (program (run_tu L_result) = program (run_tu (start (Analysis := nat) 2%Z)) \/
   exists k r1, iterates A k (start 2%Z) r1 /\ (2 ^ 31 <= Z.of_nat k)%Z).
Proof.
  assert (Hh : honest A) by exact (leaf_honest_exec "A" fA fA_honest).
  assert (He : exec (TLoop (Some A)) (start 2%Z) false L_result)
    by (apply (apply_exec 1); vm_compute; reflexivity).
  split_and!; [exact Hh | exact He | exact (loop_honest A _ _ Hh He)].
Defined.

Lemma fA_flag (tu1 tu2 tu1' : TranslationUnit Z nat) b :
  program tu1 = program tu2 -> fA tu1 = Some (tu1', b) -> exists tu2', fA tu2 = Some (tu2', b).
Proof.
  intros Hp. unfold fA. rewrite Hp.
  destruct (program tu2 <? 2)%Z; intros [= _ <-]; eauto.
Qed.

Lemma loop_converged_stays_witness :
  honest A /\ flag_determined A /\ exec (TLoop (Some A)) (start 2%Z) false L_result /\
  ((exists r'', exec (TLoop (Some A)) L_result false r'') \/
   exists k r1, iterates A k (start 2%Z) r1 /\ (2 ^ 31 <= Z.of_nat k)%Z).
Proof.
  assert (Hh : honest A) by exact (leaf_honest_exec "A" fA fA_honest).
  assert (Hd : flag_determined A) by exact (leaf_flag_determined "A" fA fA_flag).
  assert (He : exec (TLoop (Some A)) (start 2%Z) false L_result)
    by (apply (apply_exec 1); vm_compute; reflexivity).
  split_and!; [exact Hh | exact Hd | exact He | exact (loop_converged_stays A _ _ Hh Hd He)].
Defined.

Definition L0_result : Run Z nat :=
  match apply 3 (TLoop (Some A)) (start 0%Z) with Done (_, r) => r | _ => start 0%Z end.

Lemma L0_run : exec (TLoop (Some A)) (start 0%Z) true L0_result.
Proof. apply (apply_exec 3). vm_compute. reflexivity. Qed.

Lemma loop_trace_witness :
  exec W (start 0%Z) true W_result /\
  exists k r1 l, iterates (TSequence [Some (TLeaf "C" fC); Some A]) k (start 0%Z) r1 /\
    true = RamLoopTransformer.loop_flag k /\
    body_trace (TSequence [Some (TLeaf "C" fC); Some A]) (replicate k true ++ [false]) l /\
    run_log W_result = run_log (start (Analysis := nat) 0%Z) ++ l ++ [(RamLoopTransformer.getName, true)].
Proof. split; [exact W_run | exact (loop_trace _ _ _ _ W_run)]. Defined.

Lemma mkSeq_debug_wf_witness :
  Forall (owned (fun t' => wf t' = true)) [Some A; Some B] /\
  mkSeq false [Some A; Some B] = inr (TSequence [Some A; Some B]) /\
  wf (TSequence [Some A; Some B]) = true.
Proof.
  assert (Hf : Forall (owned (fun t' => wf t' = true)) [Some A; Some B])
    by (repeat constructor).
  assert (Hm : mkSeq false [Some A; Some B] = inr (TSequence [Some A; Some B]))
    by reflexivity.
  split_and!; [exact Hf | exact Hm | exact (mkSeq_debug_wf _ _ Hf Hm)].
Defined.

Definition A_result : Run Z nat :=
  match apply 1 A (start 0%Z) with Done (_, r) => r | _ => start 0%Z end.

Lemma A_seq_run : exec_seq (map Some [A]) (start 0%Z) false true A_result.
Proof. simpl. econstructor; [apply (apply_exec 1); vm_compute; reflexivity | constructor]. Qed.

Lemma sequence_null_crash_witness :
  exec_seq (map Some [A]) (start 0%Z) false true A_result /\
  exists n, forall fuel, n <= fuel ->
    apply fuel (TSequence (map Some [A] ++ None :: [Some B])) (start 0%Z) =
    Crash NullDereference.
Proof.
  pose proof A_seq_run as He.
  split; [exact He | exact (sequence_null_crash [A] [Some B] _ _ _ He)].
Defined.

Lemma sequence_crash_propagates_witness :
  exec_seq (map Some [A]) (start 0%Z) false true A_result /\
  apply 1 (mkLoop None) A_result = Crash NullDereference /\
  exists m, forall fuel, m <= fuel ->
    apply fuel (TSequence (map Some [A] ++ Some (mkLoop None) :: [Some B])) (start 0%Z) =
    Crash NullDereference.
Proof.
  pose proof A_seq_run as He.
  assert (Hc : apply 1 (mkLoop None) A_result = Crash NullDereference) by reflexivity.
  split_and!; [exact He | exact Hc | exact (sequence_crash_propagates [A] _ [Some B] _ _ _ _ _ He Hc)].
Defined.

Lemma analysis_fresh_witness :
  all_leaves (leaf_ok sizeof) W /\ exec W (start 0%Z) true W_result /\
  run_coherent sizeof (start 0%Z) /\
  exists tu', getAnalysis sizeof "size" (run_tu W_result) =
              Done (sizeof "size" (program (run_tu W_result)), tu').
Proof.
  pose proof W_leaves_ok as Hl.
  assert (H0 : run_coherent sizeof (start 0%Z)) by apply map_Forall_empty.
  split_and!; [exact Hl | exact W_run | exact H0 |
               exact (analysis_fresh sizeof W _ _ _ "size" Hl W_run H0)].
Defined.

Lemma loop_crash_propagates_witness :
  advances Failure.LB 1 (start 0%Z) Failure.LB_result /\
  apply 1 Failure.LB Failure.LB_result = Crash (PassFailure "F") /\
  exists m, forall fuel, m <= fuel ->
    apply fuel (TLoop (Some Failure.LB)) (start 0%Z) = Crash (PassFailure "F").
Proof.
  assert (Ha : advances Failure.LB 1 (start 0%Z) Failure.LB_result)
    by (econstructor; [exact Failure.LB_first_run | constructor]).
  assert (Hc : apply 1 Failure.LB Failure.LB_result = Crash (PassFailure "F"))
    by (vm_compute; reflexivity).
  split_and!; [exact Ha | exact Hc | exact (loop_crash_propagates _ _ _ _ _ _ Ha Hc)].
Defined.

Lemma fA_total : leaf_total fA.
Proof. intros tu. unfold fA. by destruct (program tu <? 2)%Z. Qed.

(** A start with the same program whose cache already holds the
    analysis, and an earlier trace line. *)
Definition W_start2 : Run Z nat :=
  mkRun (mkTranslationUnit 0%Z {[ "size" := 0 ]}) [("X", true)].

Lemma cache_transparent_witness :
  all_leaves (leaf_transparent (coherent sizeof)) W /\ exec W (start 0%Z) true W_result /\
  related (coherent sizeof) (start 0%Z) W_start2 /\
  exists r2', exec W W_start2 true r2' /\ program (run_tu W_result) = program (run_tu r2').
Proof.
  assert (Hl : all_leaves (leaf_transparent (coherent sizeof)) W)
    by (apply W_leaves; [exact fC_transparent | exact fA_transparent]).
  assert (Hr : related (coherent sizeof) (start 0%Z) W_start2).
  { split_and!; [apply map_Forall_empty | apply map_Forall_singleton; reflexivity | reflexivity]. }
  split_and!; [exact Hl | exact W_run | exact Hr |
    exact (cache_transparent (coherent sizeof) (invalidateAnalyses_coherent sizeof) W _ _ _ _ Hl W_run Hr)].
Defined.

Lemma D_never_changes q c q' : exec SingleNoop.D q c q' -> c = false.
Proof.
  intros H. inversion H as [? ? ? ? r1 E| |]; subst.
  apply leaf_transform_Done in E as [E _]. by injection E.
Qed.

(** A loop around [Sequence([A, D])]: A changes the program and reports
    [true], D never reports a change. *)
Definition LS : RamTransformer Z nat := TLoop (Some (TSequence (map Some [A] ++ [Some SingleNoop.D]))).

Definition LS_result : Run Z nat :=
  match apply 1 LS (start 0%Z) with Done (_, r) => r | _ => start 0%Z end.

Lemma loop_stops_at_stable_last_witness :
  (forall q c q', exec SingleNoop.D q c q' -> c = false) /\ exec LS (start 0%Z) false LS_result /\
  (false = false /\ exists r1, exec (TSequence (map Some [A] ++ [Some SingleNoop.D])) (start 0%Z) false r1 /\
                               LS_result = after_apply RamLoopTransformer.getName false r1).
Proof.
  assert (HL : exec LS (start 0%Z) false LS_result) by (apply (apply_exec 1); vm_compute; reflexivity).
  split; [exact D_never_changes |
          split; [exact HL | exact (loop_stops_at_stable_last [A] SingleNoop.D _ _ _ D_never_changes HL)]].
Defined.

(** A's ranking: the distance of the counter to 2. *)
Definition rankA (r : Run Z nat) : nat := Z.to_nat (2 - program (run_tu r)).

Lemma rankA_decreases r r' : exec A r true r' -> rankA r' < rankA r.
Proof.
  intros H. inversion H as [? ? ? ? r1 E| |]; subst.
  apply leaf_transform_Done in E as [E _]. unfold rankA, fA in *.
  destruct (Z.ltb_spec (program (run_tu r)) 2); injection E as E; [| discriminate].
  unfold after_apply; simpl. rewrite <- E. simpl. lia.
Qed.

Lemma exec_total_witness :
  converges (TLoop (Some A)) /\ exists b r', exec (TLoop (Some A)) (start 0%Z) b r'.
Proof.
  assert (Hc : converges (TLoop (Some A))).
  { apply (converges_loop A rankA); [constructor; exact fA_total | exact rankA_decreases]. }
  split; [exact Hc | exact (exec_total (TLoop (Some A)) Hc (start 0%Z))].
Defined.

Lemma exec_applies_every_leaf_witness :
  exec (TLoop (Some A)) (start 0%Z) true L0_result /\ "A" ∈ leaf_names (TLoop (Some A)) /\
  count_applies "A" (run_log (start (Analysis := nat) 0%Z)) < count_applies "A" (run_log L0_result).
Proof.
  pose proof L0_run as He.
  assert (Hn : "A" ∈ leaf_names (TLoop (Some A))) by (simpl; set_solver).
  split_and!; [exact He | exact Hn | exact (exec_applies_every_leaf _ _ _ _ "A" He Hn)].
Defined.

Lemma sequence_flatten_witness :
  ([Some B] <> [] \/ ([] : list (option (RamTransformer Z nat))) <> []) /\
  pass_equiv (TSequence ([Some A] ++ Some (TSequence [Some B]) :: []))
             (TSequence ([Some A] ++ [Some B] ++ [])).
Proof.
  assert (Hne : [Some B] <> [] \/ ([] : list (option (RamTransformer Z nat))) <> [])
    by (left; discriminate).
  split; [exact Hne | exact (sequence_flatten [Some A] [Some B] [] Hne)].
Defined.

End Instances.
